(** * bSuite.database.base: the pooled query layer, embedded and verified

    A shallow embedding of [bSuite/database/base.py]: the comparator
    inference [get_comparator], the class [CoreDatabase] with its scoped
    [cursor], the executor [query], the cached [tables] accessor and the
    record operations [select], [insert] and [delete].

    Python values are an inductive type, dictionaries are association
    lists in insertion order, the object's attributes and the statements
    that reached the database are threaded through a state-and-exception
    monad, and the database server is a parameter of the development. *)

From Stdlib Require Import ZArith DecimalString.
From stdpp Require Import base strings list.

Open Scope string_scope.
Open Scope list_scope.

(** ** Python values *)

(** The scalars that travel between the caller, this layer and the driver.
    A float is kept by its IEEE-754 bit pattern: the layer only tests its
    type. *)
Inductive value :=
  | VNone
  | VBool (b : bool)
  | VInt (z : Z)
  | VFloat (bits : Z)
  | VStr (s : string).

(** [isinstance(v, str)]. *)
Definition isinstance_str (v : value) : bool :=
  match v with VStr _ => true | _ => false end.

(** [isinstance(v, int)]: [bool] is a subclass of [int]. *)
Definition isinstance_int (v : value) : bool :=
  match v with VInt _ | VBool _ => true | _ => false end.

(** A dictionary with string keys, in insertion order. *)
Abbreviation dict := (list (string * value)).

(** A row as the driver hands it over: a tuple of values. *)
Abbreviation row := (list value).

(** The members of the lists the layer returns. *)
Inductive item :=
  | Scalar (v : value)
  | Tuple (t : row)
  | Record (r : dict).

(** The exceptions that can leave the layer. *)
Inductive exn :=
  | KeyError (msg : string)
  | IndexError
  | TypeError
  | PoolError
  | ProgrammingError
  | DriverError (e : string).

(** ** Strings

    A Python [str] is kept as a [string], the sequence of bytes of its
    UTF-8 form; the substrings the layer looks for are ASCII, for which
    the search over bytes and the search over code points agree. *)

(** [sub in s]. *)
Fixpoint str_in (sub s : string) : bool :=
  String.prefix sub s ||
  match s with
  | EmptyString => false
  | String _ s' => str_in sub s'
  end.

(** [s.find(sub)], counted from [i]: the lowest index, or [-1]. *)
Fixpoint find_from (sub s : string) (i : Z) : Z :=
  if String.prefix sub s then i
  else match s with
       | EmptyString => (-1)%Z
       | String _ s' => find_from sub s' (i + 1)
       end.

Definition find (s sub : string) : Z := find_from sub s 0.

(** [sep.join(l)]. *)
Definition join (sep : string) (l : list string) : string := String.concat sep l.

(** [str(n)] for an integer. *)
Definition str_of_int (n : Z) : string := NilZero.string_of_int (Z.to_int n).

(** ** Comparator inference *)

(** What [get_comparator] returns: a keyword, or a pair of a keyword and
    the value to bind instead. *)
Inductive comparator :=
  | CStr (c : string)
  | CTuple (c : string) (v : value).

Definition get_comparator (v : value) : comparator :=
  match v with
  | VStr s =>
      if str_in "null" s
      then (if str_in "not" s then CTuple "is not" VNone else CTuple "is" VNone)
      else CStr "like"
  | _ =>
      if isinstance_int v then CStr "=" else CStr "is"
  end.

(** ** Statements *)

(** A statement as it is handed to the driver: the text and the bound
    parameters ([None] or a tuple). *)
Definition statement := (string * option (list value))%type.

(** One turn of the loop over [where.items()] in [select]. *)
Definition select_condition (acc : list string * list value) (kv : string * value)
  : list string * list value :=
  let '(conditions, passed_vars) := acc in
  let '(k, v) := kv in
  let '(comparator, v) :=
    match get_comparator v with
    | CTuple c v' => (c, v')
    | CStr c => (c, v)
    end in
  (conditions ++ [k +:+ " " +:+ comparator +:+ " %s"], passed_vars ++ [v]).

(** The where text and the collected parameters of [select]. *)
Definition select_where (where_ : option dict) : string * list value :=
  match where_ with
  | None | Some [] => ("", [])
  | Some w =>
      let '(conditions, passed_vars) := fold_left select_condition w ([], []) in
      (" where " +:+ join " and " conditions, passed_vars)
  end.

(** [None if not passed_vars else tuple(passed_vars)]. *)
Definition tuple_or_none (passed_vars : list value) : option (list value) :=
  match passed_vars with [] => None | _ => Some passed_vars end.

(** [f' limit {limit}' if limit else '']. *)
Definition limit_suffix (limit : option Z) : string :=
  match limit with
  | None => ""
  | Some n => if (n =? 0)%Z then "" else " limit " +:+ str_of_int n
  end.

(** [field != '*' and field.find(',') == -1]. *)
Definition single_field (field : string) : bool :=
  negb (String.eqb field "*") && (find field "," =? -1)%Z.

(** The statement [select] builds. *)
Definition select_statement (table field : string) (where_ : option dict)
    (limit : option Z) : statement :=
  let '(w, passed_vars) := select_where where_ in
  ("select " +:+ field +:+ " from " +:+ table +:+ w +:+ limit_suffix limit +:+ ";",
   tuple_or_none passed_vars).

(** One turn of the loop over [where.items()] in [delete]. *)
Definition delete_condition (acc : list string * list value) (kv : string * value)
  : list string * list value :=
  let '(conditions, passed_vars) := acc in
  let '(k, v) := kv in
  let comparator := if isinstance_str v then "like" else "is" in
  (conditions ++ [k +:+ " " +:+ comparator +:+ " %s"], passed_vars ++ [v]).

(** The statement [delete] builds. *)
Definition delete_statement (table : string) (where_ : dict) : statement :=
  let '(conditions, passed_vars) := fold_left delete_condition where_ ([], []) in
  ("delete from " +:+ table +:+ " where " +:+ join " and " conditions,
   Some passed_vars).

(** The statement [insert] builds from the forced list [data], whose first
    record is [first].  [not upsert_on] holds of [None] and of the empty
    string. *)
Definition insert_statement (table : string) (first : dict) (data : list dict)
    (upsert_on : option string) : statement :=
  let kls := map fst first in
  let ks := "(" +:+ join ", " kls +:+ ")" in
  let kvs := "(" +:+ join ", " (map (fun _ => "%s") kls) +:+ ")" in
  let vks := join ", " (map (fun _ => kvs) data) in
  let vs := concat (map (map snd) data) in
  let ex_ks := "(" +:+ join ", " (map (fun k => "EXCLUDED." +:+ k) kls) +:+ ")" in
  let collision :=
    match upsert_on with
    | None | Some "" => "DO NOTHING"
    | Some u => "(" +:+ u +:+ ") DO UPDATE SET " +:+ ks +:+ " = " +:+ ex_ks
    end in
  ("insert into " +:+ table +:+ " " +:+ ks +:+ " VALUES " +:+ vks
     +:+ " ON CONFLICT " +:+ collision +:+ ";",
   Some vs).

(** ** The driver's connection pool

    [psycopg2.pool.ThreadedConnectionPool] is the driver's, not this
    repository's.  It is modelled after the driver's [getconn] and
    [putconn]: connection objects live in a store and are named by their
    index, so that closing a connection is seen by whoever holds it. *)
Module Pool.

Record connection := Connection { closed : bool; autocommit : bool }.

Record t := Make {
  minconn : nat;
  maxconn : nat;
  conns : list connection;   (* every connection object made so far *)
  _pool : list nat;          (* idle connections *)
  _used : list nat           (* connections handed out *)
}.

Definition with_conns (p : t) (cs : list connection) : t :=
  Make (minconn p) (maxconn p) cs (_pool p) (_used p).

(** [psycopg2.connect(...)]: a new open connection object. *)
Definition connect (p : t) : nat * t :=
  (length (conns p), with_conns p (conns p ++ [Connection false false])).

(** [ThreadedConnectionPool(minconn, maxconn, ...)]: [minconn]
    connections are opened at once. *)
Definition create (minc maxc : nat) : t :=
  Make minc maxc (replicate minc (Connection false false)) (seq 0 minc) [].

(** [getconn()]: the idle connection appended last, else a new one while
    fewer than [maxconn] are out, else the pool's error. *)
Definition getconn (p : t) : option (nat * t) :=
  match last (_pool p) with
  | Some c =>
      Some (c, Make (minconn p) (maxconn p) (conns p)
                    (removelast (_pool p)) (_used p ++ [c]))
  | None =>
      if (length (_used p) =? maxconn p)%nat then None
      else let '(c, p') := connect p in
           Some (c, Make (minconn p') (maxconn p') (conns p')
                         (_pool p') (_used p' ++ [c]))
  end.

(** [cxn.autocommit = b]. *)
Definition set_autocommit (c : nat) (b : bool) (p : t) : t :=
  with_conns p (alter (fun cn => Connection (closed cn) b) c (conns p)).

(** [cxn.close()]. *)
Definition close (c : nat) (p : t) : t :=
  with_conns p (alter (fun cn => Connection true (autocommit cn)) c (conns p)).

Definition is_closed (c : nat) (p : t) : bool :=
  match conns p !! c with
  | Some cn => closed cn
  | None => true
  end.

(** [putconn(cxn)]: an open connection goes back to the idle list while
    that list is shorter than [minconn]; a closed one is dropped; beyond
    [minconn] the connection is closed.  Either way it is no longer out. *)
Definition putconn (c : nat) (p : t) : t :=
  let p1 :=
    if (length (_pool p) <? minconn p)%nat then
      if is_closed c p then p
      else Make (minconn p) (maxconn p) (conns p) (_pool p ++ [c]) (_used p)
    else close c p in
  Make (minconn p1) (maxconn p1) (conns p1) (_pool p1)
       (filter (fun c' => c' ≠ c) (_used p1)).

(** What the exit of a cursor scope does to the pool, for the connection
    [c] the scope took: autocommit was set, then the connection is
    closed and handed back. *)
Definition release (c : nat) (p : t) : t :=
  putconn c (close c (set_autocommit c true p)).

(** No connection is out and the pool may hold at least one. *)
Definition free (p : t) : Prop := _used p = [] /\ maxconn p <> 0.

End Pool.

(** ** The database server and the object's state *)

(** What the server answers to a statement: an error, completion without
    a result set, or a result set with its column names. *)
Inductive response :=
  | Failure (e : string)
  | Completed
  | ResultSet (description : list string) (rows : list row).

(** The attributes of a [CoreDatabase] object, and the statements that
    reached the server so far, oldest first. *)
Record CoreDatabase := Self {
  db : option item;
  _tables : option (list value);
  pool : Pool.t;
  sent : list statement
}.

Definition with_pool (self : CoreDatabase) (p : Pool.t) : CoreDatabase :=
  Self (db self) (_tables self) p (sent self).

(** ** Computations: state and exceptions *)

Inductive outcome (A : Type) :=
  | Return (a : A)
  | Raise (e : exn).
Arguments Return {A} a.
Arguments Raise {A} e.

Definition M (A : Type) : Type := CoreDatabase -> outcome A * CoreDatabase.

Definition ret {A} (a : A) : M A := fun self => (Return a, self).

Definition raise {A} (e : exn) : M A := fun self => (Raise e, self).

Definition bind {A B} (m : M A) (f : A -> M B) : M B :=
  fun self =>
    match m self with
    | (Return a, self') => f a self'
    | (Raise e, self') => (Raise e, self')
    end.

Declare Scope py_scope.
Delimit Scope py_scope with py.
Notation "'let*' x := m 'in' k" := (bind m (fun x => k))
  (at level 10, x pattern, m at level 100, k at level 200) : py_scope.
Open Scope py_scope.

(** ** Python helpers on rows and records *)

(** [d[k] = v]: an existing key keeps its place. *)
Fixpoint setitem (d : dict) (k : string) (v : value) : dict :=
  match d with
  | [] => [(k, v)]
  | (k', v') :: d' =>
      if String.eqb k' k then (k', v) :: d' else (k', v') :: setitem d' k v
  end.

(** [{k: v for k, v in zip(cols, row)}]. *)
Definition make_record (cols : list string) (r : row) : dict :=
  fold_left (fun d kv => setitem d (fst kv) (snd kv)) (zip cols r) [].

(** Truth value of a scalar and of a list member. *)
Definition truthy (v : value) : bool :=
  match v with
  | VNone => false
  | VBool b => b
  | VInt z => negb (z =? 0)%Z
  | VFloat bits => negb ((bits =? 0) || (bits =? 2 ^ 63))%Z
  | VStr s => negb (String.eqb s "")
  end.

Definition truthy_item (x : item) : bool :=
  match x with
  | Scalar v => truthy v
  | Tuple t => negb (bool_decide (t = []))
  | Record r => negb (bool_decide (r = []))
  end.

(** [x[0]]. *)
Definition getitem0 (x : item) : outcome value :=
  match x with
  | Tuple (v :: _) => Return v
  | Tuple [] => Raise IndexError
  | Record _ => Raise (KeyError "0")
  | Scalar (VStr (String a _)) => Return (VStr (String a ""))
  | Scalar (VStr "") => Raise IndexError
  | Scalar _ => Raise TypeError
  end.

(** [[x[0] for x in l]]: the first failing member raises. *)
Fixpoint firsts (l : list item) : outcome (list value) :=
  match l with
  | [] => Return []
  | x :: l' =>
      match getitem0 x with
      | Raise e => Raise e
      | Return v =>
          match firsts l' with
          | Raise e => Raise e
          | Return vs => Return (v :: vs)
          end
      end
  end.

(** [table in tables]: a string equals only strings. *)
Definition table_in (table : string) (tables : list value) : bool :=
  existsb (fun v => match v with VStr s => String.eqb s table | _ => false end) tables.

Definition dquote : string := String (Ascii.ascii_of_nat 34) "".

Definition catalog_query : string :=
  "select table_name from information_schema.tables where table_schema = 'public'".

(** What [insert] accepts: one record or a list of records. *)
Inductive insert_data :=
  | OneRecord (d : dict)
  | Records (l : list dict).

(** [[data] if isinstance(data, dict) else data]. *)
Definition force_list (data : insert_data) : list dict :=
  match data with
  | OneRecord d => [d]
  | Records l => l
  end.

(** ** The class [CoreDatabase] *)

Section CoreDatabase.

(** The server: its answer to a statement, given the statements this
    object sent before. *)
Variable server : list statement -> statement -> response.

(** [csr.execute(query, vals)]: the statement reaches the server; a
    failure is raised as the driver's error, otherwise the cursor holds
    the answer. *)
Definition execute (csr : nat) (q : string) (vals : option (list value))
  : M response :=
  fun self =>
    let r := server (sent self) (q, vals) in
    let self' := Self (db self) (_tables self) (pool self) (sent self ++ [(q, vals)]) in
    match r with
    | Failure e => (Raise (DriverError e), self')
    | _ => (Return r, self')
    end.

(** [tuple(x[0] for x in csr.description)]: without a result set the
    description is [None]. *)
Definition description_names (r : response) : M (list string) :=
  match r with
  | ResultSet d _ => ret d
  | _ => raise TypeError
  end.

(** [csr.fetchall()]. *)
Definition fetchall (r : response) : M (list row) :=
  match r with
  | ResultSet _ rows => ret rows
  | _ => raise ProgrammingError
  end.

(** The context manager [cursor]: a connection is taken from the pool and
    set to autocommit, the body runs with a cursor on it, and on every
    exit the connection is committed (nothing is pending under
    autocommit), the cursor is closed, the connection is closed and then
    handed to [putconn].  The cursor is named by its connection. *)
Definition cursor {A} (body : nat -> M A) : M A :=
  fun self =>
    match Pool.getconn (pool self) with
    | None => (Raise PoolError, self)
    | Some (cxn, p) =>
        let self1 := with_pool self (Pool.set_autocommit cxn true p) in
        let '(r, self2) := body cxn self1 in
        (r, with_pool self2 (Pool.putconn cxn (Pool.close cxn (pool self2))))
    end.

(** The shaping of what was fetched, after the cursor scope of [query]:
    falling off the end returns [None]. *)
Definition shape (fetched : list row) (cols : list string) (as_tuple : bool)
  : option (list item) :=
  match fetched with
  | [] => None
  | _ =>
      match cols with
      | _ :: _ => Some (map (fun r => Record (make_record cols r)) fetched)
      | [] => if as_tuple then Some (map Tuple fetched) else None
      end
  end.

Definition query (q : string) (vals : option (list value))
    (as_tuple no_resp : bool) : M (option (list item)) :=
  let* (fetched, cols) :=
    cursor (fun csr =>
      let* r := execute csr q vals in
      if negb no_resp then
        let* cols := (if negb as_tuple then description_names r else ret []) in
        let* fetched := fetchall r in
        ret (fetched, cols)
      else ret ([], [])) in
  ret (shape fetched cols as_tuple).

(** [self.db = self.query('SELECT current_database()', as_tuple=True)[0]]. *)
Definition __post_init__ : M unit :=
  fun self =>
    match query "SELECT current_database()" None true false self with
    | (Raise e, self') => (Raise e, self')
    | (Return None, self') => (Raise TypeError, self')
    | (Return (Some []), self') => (Raise IndexError, self')
    | (Return (Some (x :: _)), self') =>
        (Return tt, Self (Some x) (_tables self') (pool self') (sent self'))
    end.

(** The constructor: no database name and no table list yet, a pool of one
    to five connections, then [__post_init__]. *)
Definition __init__ : outcome unit * CoreDatabase :=
  __post_init__ (Self None None (Pool.create 1 5) []).

(** The property [tables]. *)
Definition tables : M (list value) :=
  fun self =>
    match _tables self with
    | Some (t :: ts) => (Return (t :: ts), self)
    | _ =>
        match query catalog_query None true false self with
        | (Raise e, self') => (Raise e, self')
        | (Return resp, self') =>
            let computed :=
              match resp with
              | None | Some [] => Return []
              | Some l => firsts (filter (fun x => truthy_item x = true) l)
              end in
            match computed with
            | Raise e => (Raise e, self')
            | Return ts =>
                (Return ts, Self (db self') (Some ts) (pool self') (sent self'))
            end
        end
    end.

Definition select (table field : string) (where_ : option dict)
    (limit : option Z) : M (list item) :=
  let* tbls := tables in
  if negb (table_in table tbls) then
    raise (KeyError ("Table " +:+ dquote +:+ table +:+ dquote
                       +:+ " is unavailable in current database."))
  else
    let '(q, passed_vars) := select_statement table field where_ limit in
    let single := single_field field in
    let* resp := query q passed_vars single false in
    match resp with
    | None | Some [] => ret []
    | Some l =>
        if single then
          match firsts l with
          | Raise e => raise e
          | Return vs => ret (map Scalar vs)
          end
        else ret l
    end.

Definition insert (table : string) (data : insert_data)
    (upsert_on : option string) : M unit :=
  let data := force_list data in
  match data with
  | [] => raise IndexError
  | first :: _ =>
      let '(q, vs) := insert_statement table first data upsert_on in
      let* _ := query q vs false true in
      ret tt
  end.

Definition delete (table : string) (where_ : dict) : M unit :=
  let '(q, vals) := delete_statement table where_ in
  let* _ := query q vals false false in
  ret tt.

End CoreDatabase.

(** [n] successive reads of the property [tables]. *)
Fixpoint tables_calls (server : list statement -> statement -> response)
    (n : nat) : M (list (list value)) :=
  match n with
  | 0 => ret []
  | S n' =>
      let* t := tables server in
      let* ts := tables_calls server n' in
      ret (t :: ts)
  end.

(** ** Sample servers and objects *)

(** A database [main] with the tables [users] and [logs]; [users] has two
    rows. *)
Definition demo_server : list statement -> statement -> response :=
  fun _ st =>
    let q := fst st in
    if String.eqb q "SELECT current_database()"
    then ResultSet ["current_database"] [[VStr "main"]]
    else if String.eqb q catalog_query
    then ResultSet ["table_name"] [[VStr "users"]; [VStr "logs"]]
    else if String.prefix "select id from users where" q
    then ResultSet ["id"] []
    else if String.prefix "select id from" q
    then ResultSet ["id"] [[VInt 1]; [VInt 2]]
    else if String.prefix "select" q
    then ResultSet ["id"; "name"] [[VInt 1; VStr "al"]; [VInt 2; VStr "bo"]]
    else Completed.

(** A database [main] without any table: the catalog lists nothing. *)
Definition bare_server : list statement -> statement -> response :=
  fun _ st =>
    let q := fst st in
    if String.eqb q "SELECT current_database()"
    then ResultSet ["current_database"] [[VStr "main"]]
    else if String.prefix "select" q
    then ResultSet ["table_name"] []
    else Completed.

(** The object right after construction. *)
Definition fresh (server : list statement -> statement -> response)
  : CoreDatabase := snd (__init__ server).

(** The object after construction and a first read of [tables]. *)
Definition warm (server : list statement -> statement -> response)
  : CoreDatabase := snd (tables server (fresh server)).

(** [d.get(k)]: the value under the key [k], if any. *)
Fixpoint getitem (d : dict) (k : string) : option value :=
  match d with
  | [] => None
  | (k', v) :: d' => if String.eqb k' k then Some v else getitem d' k
  end.

(** The pairs of an optional where mapping: none when it is absent. *)
Definition where_items (where_ : option dict) : dict :=
  match where_ with
  | Some w => w
  | None => []
  end.

(** The number of occurrences of the character [c] in [s]. *)
Fixpoint count_char (c : Ascii.ascii) (s : string) : nat :=
  match s with
  | EmptyString => 0
  | String a s' => (if Ascii.eqb a c then 1 else 0) + count_char c s'
  end.

(** The number of percent signs of a statement text: the driver reads
    each as the start of a placeholder. *)
Definition percent : Ascii.ascii := Eval cbv in Ascii.ascii_of_nat 37.

Definition placeholders (s : string) : nat := count_char percent s.

(** The number of parameters bound to a statement. *)
Definition bound (vals : option (list value)) : nat :=
  match vals with
  | None => 0
  | Some l => length l
  end.

(** ** Vocabulary of the specification *)

(** The comparators of a where predicate. *)
Inductive keyword := EQUALS | LIKE | IS | IS_NOT.

Definition sql_keyword (c : keyword) : string :=
  match c with
  | EQUALS => "="
  | LIKE => "like"
  | IS => "is"
  | IS_NOT => "is not"
  end.

(** One condition of a where clause: the field, the comparator and the
    placeholder of the bound parameter. *)
Definition predicate (k : string) (c : keyword) : string :=
  k +:+ " " +:+ sql_keyword c +:+ " %s".

(** The comparator of [delete]: strings match by pattern, the rest by
    identity. *)
Definition delete_rule (v : value) : keyword :=
  match v with
  | VStr _ => LIKE
  | _ => IS
  end.

(** The keyword and the bound parameter that one turn of the loop of
    [select] draws from [get_comparator]. *)
Definition comparator_of (v : value) : string :=
  match get_comparator v with
  | CTuple c _ => c
  | CStr c => c
  end.

Definition bound_of (v : value) : value :=
  match get_comparator v with
  | CTuple _ v' => v'
  | CStr _ => v
  end.

(** What [query] returns, read off the server's response. *)
Definition answer (as_tuple no_resp : bool) (r : response)
  : outcome (option (list item)) :=
  match r with
  | Failure e => Raise (DriverError e)
  | Completed =>
      if no_resp then Return None
      else if as_tuple then Raise ProgrammingError else Raise TypeError
  | ResultSet d rows =>
      if no_resp then Return None
      else Return (shape rows (if as_tuple then [] else d) as_tuple)
  end.

(** The object after a statement went through one cursor scope on the
    connection [c] taken from the pool, which left the pool as [p]. *)
Definition after_scope (self : CoreDatabase) (c : nat) (p : Pool.t)
    (st : statement) : CoreDatabase :=
  Self (db self) (_tables self) (Pool.release c p) (sent self ++ [st]).

(** * Properties *)

(** ** Strings

    A Python [str] is kept as a [string], the sequence of bytes of its
    UTF-8 form; the substrings the layer looks for are ASCII, for which
    the search over bytes and the search over code points agree. *)

Lemma append_nil (b : string) : "" +:+ b = b.
Proof. reflexivity. Qed.

Lemma append_cons (x : Ascii.ascii) (a b : string) :
  String x a +:+ b = String x (a +:+ b).
Proof. reflexivity. Qed.

Lemma append_assoc (a b c : string) : (a +:+ b) +:+ c = a +:+ (b +:+ c).
Proof.
  induction a as [|x a IH]; [reflexivity |].
  now rewrite !append_cons, IH.
Qed.

Lemma prefix_spec (sub s : string) :
  String.prefix sub s = true <-> exists b, s = sub +:+ b.
Proof.
  revert s. induction sub as [|x sub IH]; intros s.
  - split; [intros _; now exists s | intros _; now destruct s].
  - destruct s as [|y s]; simpl.
    + split; [discriminate | intros [b Hb]; discriminate].
    + destruct (Ascii.ascii_dec x y) as [->|Hxy].
      * rewrite IH. split; intros [b Hb]; exists b.
        -- now rewrite append_cons, Hb.
        -- rewrite append_cons in Hb. now inversion Hb.
      * split; [discriminate |].
        intros [b Hb]. rewrite append_cons in Hb. inversion Hb. congruence.
Qed.

(** [str_in] is the substring test. *)
Lemma str_in_spec (sub s : string) :
  str_in sub s = true <-> exists a b, s = a +:+ sub +:+ b.
Proof.
  induction s as [|y s IH].
  - cbn [str_in]. rewrite orb_false_r, prefix_spec. split.
    + intros [b Hb]. now exists "", b.
    + intros [a [b Hab]]. destruct a; [now exists b | discriminate].
  - cbn [str_in]. rewrite orb_true_iff, IH, prefix_spec. split.
    + intros [[b Hb] | [a [b Hab]]].
      * now exists "", b.
      * exists (String y a), b. now rewrite append_cons, Hab.
    + intros [a [b Hab]]. destruct a as [|x a].
      * left. now exists b.
      * right. exists a, b. rewrite append_cons in Hab. now inversion Hab.
Qed.

Lemma find_none_from (sub s : string) (i : Z) :
  (0 <= i)%Z -> (find_from sub s i =? -1)%Z = negb (str_in sub s).
Proof.
  revert i. induction s as [|y s IH]; intros i Hi; cbn [find_from str_in].
  - destruct (String.prefix sub ""); simpl; [| reflexivity].
    apply Z.eqb_neq. lia.
  - destruct (String.prefix sub (String y s)); simpl.
    + apply Z.eqb_neq. lia.
    + apply IH. lia.
Qed.

(** [find] answers [-1] exactly when the substring test fails. *)
Lemma find_none (s sub : string) :
  (find s sub =? -1)%Z = negb (str_in sub s).
Proof. apply find_none_from. lia. Qed.

Lemma single_field_spec (field : string) :
  single_field field = true <-> field <> "*" /\ str_in "," field = false.
Proof.
  unfold single_field. rewrite find_none, andb_true_iff, !negb_true_iff.
  now rewrite String.eqb_neq.
Qed.

(** ** The pool *)

Lemma getconn_free (p : Pool.t) :
  Pool.free p ->
  exists c p1, Pool.getconn p = Some (c, p1)
    /\ Pool._used p1 = [c] /\ Pool.maxconn p1 = Pool.maxconn p.
Proof.
  intros [Hu Hm]. unfold Pool.getconn. rewrite Hu.
  destruct (last (Pool._pool p)) as [c|].
  - eexists _, _. repeat split.
  - cbn [length]. destruct (Nat.eqb_spec 0 (Pool.maxconn p)) as [E|_]; [congruence |].
    eexists _, _. split; [reflexivity |]. simpl. rewrite Hu. now split.
Qed.

Lemma release_used (c : nat) (p : Pool.t) :
  Pool._used (Pool.release c p) = filter (fun c' => c' ≠ c) (Pool._used p).
Proof.
  unfold Pool.release, Pool.putconn. simpl.
  destruct (_ <? _)%nat; [destruct (Pool.is_closed _ _) |]; reflexivity.
Qed.

Lemma release_maxconn (c : nat) (p : Pool.t) :
  Pool.maxconn (Pool.release c p) = Pool.maxconn p.
Proof.
  unfold Pool.release, Pool.putconn. simpl.
  destruct (_ <? _)%nat; [destruct (Pool.is_closed _ _) |]; reflexivity.
Qed.

(** A scope that starts on a free pool leaves a free pool. *)
Lemma release_free (p p1 : Pool.t) (c : nat) :
  Pool.free p -> Pool.getconn p = Some (c, p1) -> Pool.free (Pool.release c p1).
Proof.
  intros Hf Hg. destruct (getconn_free p Hf) as (c' & p' & Hg' & Hu & Hm).
  rewrite Hg in Hg'. injection Hg' as <- <-.
  split.
  - rewrite release_used, Hu.
    rewrite filter_cons_False by (intros H; now apply H). reflexivity.
  - rewrite release_maxconn, Hm. apply Hf.
Qed.

Lemma is_closed_close (c : nat) (p : Pool.t) :
  Pool.is_closed c (Pool.close c p) = true.
Proof.
  unfold Pool.is_closed, Pool.close. simpl.
  rewrite list_lookup_alter_eq. now destruct (Pool.conns p !! c).
Qed.

(** The connection a scope took is closed when the scope ends. *)
Lemma release_closed (c : nat) (p : Pool.t) :
  Pool.is_closed c (Pool.release c p) = true.
Proof.
  unfold Pool.release. set (q := Pool.close c _).
  assert (Hq : Pool.is_closed c q = true) by apply is_closed_close.
  unfold Pool.putconn. rewrite Hq.
  destruct (_ <? _)%nat; [exact Hq | apply is_closed_close].
Qed.

(** The idle list after a scope: the connection taken is not put back. *)
Lemma release_idle (p p1 : Pool.t) (c : nat) :
  Pool.getconn p = Some (c, p1) ->
  Pool._pool (Pool.release c p1) = removelast (Pool._pool p).
Proof.
  intros Hg.
  assert (Hp1 : Pool._pool p1 = removelast (Pool._pool p)).
  { unfold Pool.getconn in Hg. destruct (last (Pool._pool p)) as [c'|] eqn:Hl.
    - now injection Hg as <- <-.
    - destruct (_ =? _)%nat; [discriminate |]. injection Hg as <- <-. simpl.
      apply last_None in Hl. now rewrite Hl. }
  rewrite <- Hp1. unfold Pool.release. set (q := Pool.close c _).
  assert (Hq : Pool.is_closed c q = true) by apply is_closed_close.
  unfold Pool.putconn. rewrite Hq.
  destruct (_ <? _)%nat; reflexivity.
Qed.

(** ** The executor *)

Section Executor.

Variable server : list statement -> statement -> response.

(** [query] in one equation: without a connection the pool's error and
    nothing else; with one, the statement reaches the server, the
    connection goes through [Pool.release] and the result is [answer]. *)
Lemma query_eq (q : string) (vals : option (list value))
    (as_tuple no_resp : bool) (self : CoreDatabase) :
  query server q vals as_tuple no_resp self =
  match Pool.getconn (pool self) with
  | None => (Raise PoolError, self)
  | Some (c, p) =>
      (answer as_tuple no_resp (server (sent self) (q, vals)),
       after_scope self c p (q, vals))
  end.
Proof.
  unfold query, bind, cursor, execute, after_scope, Pool.release.
  destruct (Pool.getconn (pool self)) as [[c p]|]; [| reflexivity].
  simpl. destruct (server (sent self) (q, vals)) as [e| |d rows]; simpl;
    destruct no_resp, as_tuple; reflexivity.
Qed.

(** [query] never returns an empty list: what it shapes was non-empty. *)
Lemma shape_not_empty (fetched : list row) (cols : list string) (as_tuple : bool) :
  shape fetched cols as_tuple <> Some [].
Proof.
  destruct fetched as [|r fetched]; [discriminate |].
  destruct cols as [|k cols]; [destruct as_tuple |]; discriminate.
Qed.

Lemma answer_not_empty (as_tuple no_resp : bool) (r : response) :
  answer as_tuple no_resp r <> Return (Some []).
Proof.
  destruct r as [e| |d rows]; simpl;
    destruct no_resp; try destruct as_tuple; try discriminate;
    intros H; injection H; apply shape_not_empty.
Qed.

(** The record operations in terms of the statement they build. *)

Lemma insert_eq (table : string) (data : insert_data)
    (upsert_on : option string) (self : CoreDatabase) :
  insert server table data upsert_on self =
  match force_list data with
  | [] => (Raise IndexError, self)
  | first :: rest =>
      let st := insert_statement table first (first :: rest) upsert_on in
      match Pool.getconn (pool self) with
      | None => (Raise PoolError, self)
      | Some (c, p) =>
          (match answer false true (server (sent self) st) with
           | Return _ => Return tt
           | Raise e => Raise e
           end,
           after_scope self c p st)
      end
  end.
Proof.
  unfold insert. destruct (force_list data) as [|first rest]; [reflexivity |].
  cbv zeta. destruct (insert_statement _ _ _ _) as [q vs] eqn:E.
  unfold bind. rewrite query_eq.
  destruct (Pool.getconn (pool self)) as [[c p]|]; [| reflexivity].
  now destruct (answer _ _ _).
Qed.

Lemma delete_eq (table : string) (where_ : dict) (self : CoreDatabase) :
  delete server table where_ self =
  let st := delete_statement table where_ in
  match Pool.getconn (pool self) with
  | None => (Raise PoolError, self)
  | Some (c, p) =>
      (match answer false false (server (sent self) st) with
       | Return _ => Return tt
       | Raise e => Raise e
       end,
       after_scope self c p st)
  end.
Proof.
  unfold delete. cbv zeta. destruct (delete_statement _ _) as [q vs] eqn:E.
  unfold bind. rewrite query_eq.
  destruct (Pool.getconn (pool self)) as [[c p]|]; [| reflexivity].
  now destruct (answer _ _ _).
Qed.

(** A populated cache answers without touching anything. *)
Lemma tables_cached (self : CoreDatabase) (t : value) (ts : list value) :
  _tables self = Some (t :: ts) -> tables server self = (Return (t :: ts), self).
Proof. intros H. unfold tables. now rewrite H. Qed.

(** An empty cache sends the catalog query through one cursor scope. *)
Lemma tables_miss (self : CoreDatabase) (c : nat) (p : Pool.t) :
  _tables self = None \/ _tables self = Some [] ->
  Pool.getconn (pool self) = Some (c, p) ->
  sent (snd (tables server self)) = sent self ++ [(catalog_query, None)].
Proof.
  intros H Hg. unfold tables.
  assert (E : match _tables self with Some (t :: ts) => False | _ => True end)
    by (destruct H as [-> | ->]; exact I).
  destruct (_tables self) as [[|t ts]|]; try contradiction;
    rewrite query_eq, Hg;
    destruct (answer _ _ _) as [[[|x l]|]|e]; try reflexivity;
    destruct (firsts _); reflexivity.
Qed.


(** [select] on a table the cache does not list. *)
Lemma select_unknown (table field : string) (where_ : option dict)
    (limit : option Z) (self self1 : CoreDatabase) (tbls : list value) :
  tables server self = (Return tbls, self1) ->
  table_in table tbls = false ->
  select server table field where_ limit self =
  (Raise (KeyError ("Table " +:+ dquote +:+ table +:+ dquote
                      +:+ " is unavailable in current database.")), self1).
Proof.
  intros Ht Hin. unfold select, bind. now rewrite Ht, Hin.
Qed.

(** [select] on a table the cache lists. *)
Lemma select_known (table field : string) (where_ : option dict)
    (limit : option Z) (self self1 : CoreDatabase) (tbls : list value)
    (c : nat) (p : Pool.t) :
  tables server self = (Return tbls, self1) ->
  table_in table tbls = true ->
  Pool.getconn (pool self1) = Some (c, p) ->
  select server table field where_ limit self =
  let st := select_statement table field where_ limit in
  let single := single_field field in
  (match answer single false (server (sent self1) st) with
   | Raise e => Raise e
   | Return None | Return (Some []) => Return []
   | Return (Some l) =>
       if single then
         match firsts l with
         | Raise e => Raise e
         | Return vs => Return (map Scalar vs)
         end
       else Return l
   end,
   after_scope self1 c p st).
Proof.
  intros Ht Hin Hg. unfold select, bind. rewrite Ht, Hin. cbn [negb].
  cbv zeta. destruct (select_statement _ _ _ _) as [q vs].
  rewrite query_eq, Hg.
  destruct (answer _ _ _) as [[[|x l]|]|e]; try reflexivity.
  destruct (single_field field); [| reflexivity].
  unfold raise, ret. now destruct (firsts _).
Qed.

End Executor.

(** ** The predicate builders *)

Lemma select_loop (w : dict) (cs : list string) (vs : list value) :
  fold_left select_condition w (cs, vs) =
  (cs ++ map (fun kv => fst kv +:+ " " +:+ comparator_of (snd kv) +:+ " %s") w,
   vs ++ map (fun kv => bound_of (snd kv)) w).
Proof.
  revert cs vs. induction w as [|[k v] w IH]; intros cs vs; simpl.
  - now rewrite !app_nil_r.
  - unfold comparator_of, bound_of. cbn [fst snd].
    destruct (get_comparator v); now rewrite IH, <- !app_assoc.
Qed.

Lemma delete_loop (w : dict) (cs : list string) (vs : list value) :
  fold_left delete_condition w (cs, vs) =
  (cs ++ map (fun kv => fst kv +:+ " " +:+
                        (if isinstance_str (snd kv) then "like" else "is") +:+ " %s") w,
   vs ++ map snd w).
Proof.
  revert cs vs. induction w as [|[k v] w IH]; intros cs vs; simpl.
  - now rewrite !app_nil_r.
  - now rewrite IH, <- !app_assoc.
Qed.

(** The statement of [select] with a non-empty where mapping. *)
Lemma select_statement_where (table field : string) (w : dict) (limit : option Z) :
  w <> [] ->
  select_statement table field (Some w) limit =
  ("select " +:+ field +:+ " from " +:+ table +:+ " where "
     +:+ join " and " (fst (fold_left select_condition w ([], [])))
     +:+ limit_suffix limit +:+ ";",
   Some (snd (fold_left select_condition w ([], [])))).
Proof.
  intros Hw. unfold select_statement, select_where.
  destruct w as [|kv w]; [contradiction |].
  rewrite select_loop. cbn [fst snd app]. rewrite append_assoc.
  destruct kv as [k v]. reflexivity.
Qed.

Lemma lookup_map {A B : Type} (f : A -> B) (l : list A) (i : nat) :
  map f l !! i = f <$> l !! i.
Proof.
  revert i. induction l as [|a l IH]; intros [|i]; simpl; try reflexivity.
  apply IH.
Qed.

(** What the loop of [select] leaves at the position of a pair. *)
Lemma select_condition_at (w : dict) (i : nat) (k : string) (v : value) :
  w !! i = Some (k, v) ->
  fst (fold_left select_condition w ([], [])) !! i
    = Some (k +:+ " " +:+ comparator_of v +:+ " %s")
  /\ snd (fold_left select_condition w ([], [])) !! i = Some (bound_of v).
Proof.
  intros H. rewrite select_loop. cbn [fst snd app].
  rewrite !lookup_map, H. now split.
Qed.

Lemma map_const_replicate {A B : Type} (x : B) (l : list A) :
  map (fun _ => x) l = replicate (length l) x.
Proof. induction l as [|a l IH]; simpl; [reflexivity | now rewrite IH]. Qed.

(** ** The comparator of [select] *)

(** C3: for every (field, value) pair of a select where-mapping, a string
    containing "null" is compared with [is not] (when it also contains
    "not") or [is] and binds a true null; any other string is compared
    with [like] and binds the string; an integer is compared with [=]
    and binds the integer.  The conditions and the parameters are those
    of the statement that [select] builds. *)
Theorem select_comparator_rule (table field : string) (w : dict)
    (limit : option Z) (i : nat) (k : string) (v : value) :
  w !! i = Some (k, v) ->
  let conditions := fst (fold_left select_condition w ([], [])) in
  let passed_vars := snd (fold_left select_condition w ([], [])) in
  select_statement table field (Some w) limit =
    ("select " +:+ field +:+ " from " +:+ table +:+ " where "
       +:+ join " and " conditions +:+ limit_suffix limit +:+ ";",
     Some passed_vars)
  /\ match v with
     | VStr s =>
         if str_in "null" s then
           conditions !! i = Some (predicate k (if str_in "not" s then IS_NOT else IS))
           /\ passed_vars !! i = Some VNone
         else
           conditions !! i = Some (predicate k LIKE)
           /\ passed_vars !! i = Some (VStr s)
     | VInt z =>
         conditions !! i = Some (predicate k EQUALS)
         /\ passed_vars !! i = Some (VInt z)
     | _ => True
     end.
Proof.
  intros H conditions passed_vars. split.
  - apply select_statement_where. intros ->. discriminate.
  - destruct (select_condition_at w i k v H) as [Hc Hv].
    subst conditions passed_vars. rewrite Hc, Hv.
    unfold comparator_of, bound_of, predicate.
    destruct v as [| b | z | bits | s]; try exact I; simpl.
    + now split.
    + destruct (str_in "null" s); [destruct (str_in "not" s) |]; now split.
Qed.

Lemma select_comparator_rule_witness :
  fst (fold_left select_condition
         [("name", VStr "al%"); ("deleted_at", VStr "is not null"); ("id", VInt 3)]
         ([], [])) !! 1 = Some "deleted_at is not %s"
  /\ snd (fold_left select_condition
            [("name", VStr "al%"); ("deleted_at", VStr "is not null"); ("id", VInt 3)]
            ([], [])) !! 1 = Some VNone.
Proof.
  exact (proj2 (select_comparator_rule "users" "*"
                  [("name", VStr "al%"); ("deleted_at", VStr "is not null"); ("id", VInt 3)]
                  None 1 "deleted_at" (VStr "is not null") eq_refl)).
Defined.

(** The same rule on the examples of the specification. *)
Example select_like_example :
  select_statement "users" "*" (Some [("name", VStr "al%")]) None
  = ("select * from users where name like %s;", Some [VStr "al%"]).
Proof. reflexivity. Qed.

Example select_is_null_example :
  select_statement "users" "*" (Some [("deleted_at", VStr "is null")]) None
  = ("select * from users where deleted_at is %s;", Some [VNone]).
Proof. reflexivity. Qed.

(** A boolean is compared with [=], not with [is]. *)
Lemma boolean_comparator_is_equals :
  get_comparator (VBool true) = CStr "="
  /\ comparator_of (VBool true) <> sql_keyword IS
  /\ select_statement "users" "*" (Some [("active", VBool true)]) None
     = ("select * from users where active = %s;", Some [VBool true]).
Proof. repeat split. discriminate. Qed.

(** C4, amended: for every boolean value of a select where-mapping the
    comparator is [=] and the boolean itself is bound, because a boolean
    passes the integer test of the inference rule; the default [is] is
    reached by values that are neither strings nor integers, such as
    [None] and floats. *)
Theorem select_boolean_comparator (w : dict) (i : nat) (k : string) (v : value) :
  w !! i = Some (k, v) ->
  let conditions := fst (fold_left select_condition w ([], [])) in
  let passed_vars := snd (fold_left select_condition w ([], [])) in
  match v with
  | VBool b =>
      conditions !! i = Some (predicate k EQUALS)
      /\ passed_vars !! i = Some (VBool b)
  | VNone | VFloat _ =>
      conditions !! i = Some (predicate k IS) /\ passed_vars !! i = Some v
  | _ => True
  end.
Proof.
  intros H conditions passed_vars.
  destruct (select_condition_at w i k v H) as [Hc Hv].
  subst conditions passed_vars. rewrite Hc, Hv.
  destruct v; try exact I; now split.
Qed.

Lemma select_boolean_comparator_witness :
  fst (fold_left select_condition
         [("name", VStr "al%"); ("active", VBool false)] ([], [])) !! 1
    = Some "active = %s"
  /\ snd (fold_left select_condition
            [("name", VStr "al%"); ("active", VBool false)] ([], [])) !! 1
    = Some (VBool false).
Proof.
  exact (select_boolean_comparator
           [("name", VStr "al%"); ("active", VBool false)]
           1 "active" (VBool false) eq_refl).
Defined.

(** ** The comparator of [delete] *)

(** C6: for every (field, value) pair of a delete where-mapping the
    comparator is [like] when the value is a string, whether or not it
    contains "null", and [is] otherwise; the value itself is bound, and
    this is the statement [delete] sends. *)
Theorem delete_comparator_rule
    (server : list statement -> statement -> response)
    (table : string) (w : dict) (self : CoreDatabase) :
  delete_statement table w =
    ("delete from " +:+ table +:+ " where "
       +:+ join " and " (map (fun kv => predicate (fst kv) (delete_rule (snd kv))) w),
     Some (map snd w))
  /\ match Pool.getconn (pool self) with
     | Some _ =>
         sent (snd (delete server table w self))
         = sent self ++ [delete_statement table w]
     | None => delete server table w self = (Raise PoolError, self)
     end.
Proof.
  split.
  - unfold delete_statement. rewrite delete_loop. cbn [app].
    rewrite (map_ext _ (fun kv => predicate (fst kv) (delete_rule (snd kv))));
      [reflexivity |].
    intros [k v]. unfold predicate, delete_rule. now destruct v.
  - rewrite delete_eq. cbv zeta.
    now destruct (Pool.getconn (pool self)) as [[c p]|].
Qed.

(** On the delete path a string with "null" in it is a pattern like any
    other, where [select] would bind a null. *)
Example delete_null_string :
  delete_statement "users" [("deleted_at", VStr "is null"); ("id", VInt 7)]
  = ("delete from users where deleted_at like %s and id is %s",
     Some [VStr "is null"; VInt 7]).
Proof. reflexivity. Qed.

(** ** The statement of [insert] *)

(** C7: for a non-empty batch, the keys of the first record are the column
    list of the whole statement, there is one parenthesised group of
    placeholders per record, the bound parameters are the records' values
    in row order, and the conflict clause is [DO NOTHING] without
    [upsert_on] and [(upsert_on) DO UPDATE SET] of every inserted column
    from the [EXCLUDED] row with it; this one statement is what [insert]
    sends.  An [upsert_on] that is given is a column name, hence not the
    empty string. *)
Theorem insert_statement_shape
    (server : list statement -> statement -> response)
    (table : string) (data : insert_data) (upsert_on : option string)
    (first : dict) (rest : list dict) (self : CoreDatabase)
    (c : nat) (p : Pool.t) :
  force_list data = first :: rest ->
  upsert_on <> Some "" ->
  Pool.getconn (pool self) = Some (c, p) ->
  let cols := map fst first in
  let columns := "(" +:+ join ", " cols +:+ ")" in
  let group := "(" +:+ join ", " (replicate (length cols) "%s") +:+ ")" in
  let groups := replicate (length (first :: rest)) group in
  let excluded := "(" +:+ join ", " (map (fun k => "EXCLUDED." +:+ k) cols) +:+ ")" in
  let clause :=
    match upsert_on with
    | None => "DO NOTHING"
    | Some u => "(" +:+ u +:+ ") DO UPDATE SET " +:+ columns +:+ " = " +:+ excluded
    end in
  sent (snd (insert server table data upsert_on self))
  = sent self ++
    [("insert into " +:+ table +:+ " " +:+ columns +:+ " VALUES "
        +:+ join ", " groups +:+ " ON CONFLICT " +:+ clause +:+ ";",
      Some (concat (map (map snd) (first :: rest))))].
Proof.
  intros Hd Hu Hg. cbv zeta. rewrite insert_eq, Hd. cbv zeta. rewrite Hg.
  cbn [snd after_scope sent]. do 2 f_equal.
  unfold insert_statement. rewrite !map_const_replicate, length_map.
  destruct upsert_on as [[|a u]|]; [congruence | reflexivity | reflexivity].
Qed.

Lemma insert_statement_shape_witness :
  sent (snd (insert demo_server "users"
               (Records [[("id", VInt 3); ("name", VStr "cy")];
                         [("id", VInt 4); ("name", VStr "di")]])
               (Some "id") (fresh demo_server)))
  = sent (fresh demo_server) ++
    [("insert into users (id, name) VALUES (%s, %s), (%s, %s) ON CONFLICT (id) DO UPDATE SET (id, name) = (EXCLUDED.id, EXCLUDED.name);",
      Some [VInt 3; VStr "cy"; VInt 4; VStr "di"])].
Proof.
  refine (insert_statement_shape demo_server "users"
            (Records [[("id", VInt 3); ("name", VStr "cy")];
                      [("id", VInt 4); ("name", VStr "di")]])
            (Some "id") [("id", VInt 3); ("name", VStr "cy")]
            [[("id", VInt 4); ("name", VStr "di")]]
            (fresh demo_server) 1 _ eq_refl _ eq_refl).
  discriminate.
Defined.

(** Without [upsert_on] a single record is inserted with [DO NOTHING]. *)
Example insert_one_record :
  insert_statement "users" [("id", VInt 3)] [[("id", VInt 3)]] None
  = ("insert into users (id) VALUES (%s) ON CONFLICT DO NOTHING;", Some [VInt 3]).
Proof. reflexivity. Qed.

(** The test on [upsert_on] is its truth value: the empty string also
    gives [DO NOTHING]. *)
Example insert_empty_upsert :
  insert_statement "users" [("id", VInt 3)] [[("id", VInt 3)]] (Some "")
  = ("insert into users (id) VALUES (%s) ON CONFLICT DO NOTHING;", Some [VInt 3]).
Proof. reflexivity. Qed.

(** ** The limit of [select] *)

(** C10: for a known table, [select] with [limit=0] sends a statement
    without any limit suffix, the statement it sends without a limit, and
    the whole call behaves as the call without a limit. *)
Theorem select_limit_zero
    (server : list statement -> statement -> response)
    (table field : string) (where_ : option dict)
    (self self1 : CoreDatabase) (tbls : list value) (c : nat) (p : Pool.t) :
  tables server self = (Return tbls, self1) ->
  table_in table tbls = true ->
  Pool.getconn (pool self1) = Some (c, p) ->
  select server table field where_ (Some 0%Z) self
  = select server table field where_ None self
  /\ sent (snd (select server table field where_ (Some 0%Z) self))
     = sent self1 ++
       [("select " +:+ field +:+ " from " +:+ table
           +:+ fst (select_where where_) +:+ ";",
         tuple_or_none (snd (select_where where_)))].
Proof.
  intros Ht Hin Hg. split; [reflexivity |].
  rewrite (select_known server table field where_ (Some 0%Z) self self1 tbls c p Ht Hin Hg).
  cbv zeta. cbn [snd after_scope sent]. do 2 f_equal.
  unfold select_statement. now destruct (select_where where_).
Qed.

Lemma select_limit_zero_witness :
  select demo_server "users" "id" None (Some 0%Z) (fresh demo_server)
  = select demo_server "users" "id" None None (fresh demo_server)
  /\ sent (snd (select demo_server "users" "id" None (Some 0%Z) (fresh demo_server)))
     = sent (warm demo_server) ++ [("select id from users;", None)].
Proof.
  exact (select_limit_zero demo_server "users" "id" None
           (fresh demo_server) (warm demo_server)
           [VStr "users"; VStr "logs"] 2 _ eq_refl eq_refl eq_refl).
Defined.

(** ** The result of [select] *)

Lemma firsts_singletons (vs : list value) :
  firsts (map (fun v => Tuple [v]) vs) = Return vs.
Proof. induction vs as [|v vs IH]; simpl; [reflexivity | now rewrite IH]. Qed.

Lemma map_map_tuple (vs : list value) :
  map Tuple (map (fun v => [v]) vs) = map (fun v => Tuple [v]) vs.
Proof. induction vs as [|v vs IH]; simpl; [reflexivity | now rewrite IH]. Qed.

(** C5: a [select] of one concrete field, neither the wildcard nor a list
    with a comma, returns the flat list of the values of that column, one
    scalar per row, not records; and any [select] whose statement yields
    no row returns the empty list. *)
Theorem select_result_shape
    (server : list statement -> statement -> response)
    (table field : string) (where_ : option dict) (limit : option Z)
    (self self1 : CoreDatabase) (tbls : list value) (c : nat) (p : Pool.t)
    (d : list string) (rows : list row) :
  tables server self = (Return tbls, self1) ->
  table_in table tbls = true ->
  Pool.getconn (pool self1) = Some (c, p) ->
  server (sent self1) (select_statement table field where_ limit) = ResultSet d rows ->
  (forall vs : list value,
      field <> "*" -> str_in "," field = false ->
      rows = map (fun v => [v]) vs ->
      fst (select server table field where_ limit self) = Return (map Scalar vs))
  /\ (rows = [] -> fst (select server table field where_ limit self) = Return []).
Proof.
  intros Ht Hin Hg Hr.
  rewrite (select_known server table field where_ limit self self1 tbls c p Ht Hin Hg).
  cbv zeta. rewrite Hr. cbn [fst]. split.
  - intros vs Hstar Hcomma ->.
    rewrite (proj2 (single_field_spec field) (conj Hstar Hcomma)).
    destruct vs as [|v vs]; [reflexivity |].
    cbn [answer negb shape map]. rewrite map_map_tuple.
    change (Tuple [v] :: map (fun v => Tuple [v]) vs)
      with (map (fun v => Tuple [v]) (v :: vs)).
    now rewrite firsts_singletons.
  - intros ->. simpl. now destruct (single_field field).
Qed.

Lemma select_result_shape_witness :
  fst (select demo_server "users" "id" None None (fresh demo_server))
  = Return [Scalar (VInt 1); Scalar (VInt 2)].
Proof.
  refine (proj1 (select_result_shape demo_server "users" "id" None None
                   (fresh demo_server) (warm demo_server)
                   [VStr "users"; VStr "logs"] 2 _ ["id"] [[VInt 1]; [VInt 2]]
                   eq_refl eq_refl eq_refl eq_refl)
                [VInt 1; VInt 2] _ eq_refl eq_refl).
  discriminate.
Defined.

(** A where clause that matches nothing: the empty list, for one field
    and for the wildcard alike. *)
Example select_no_rows :
  fst (select demo_server "users" "id" (Some [("id", VInt 0)]) None (fresh demo_server))
  = Return []
  /\ fst (select bare_server "users" "*" None None
            (Self None (Some [VStr "users"]) (Pool.create 1 5) []))
     = Return [].
Proof. split; reflexivity. Qed.

(** ** The result of [query] *)

(** A statement with a column and no row: [query] returns [None]. *)
Lemma query_no_rows_is_none :
  demo_server (sent (fresh demo_server))
    ("select id from users where id = %s;", Some [VInt 0]) = ResultSet ["id"] []
  /\ fst (query demo_server "select id from users where id = %s;" (Some [VInt 0])
            false false (fresh demo_server)) = Return None
  /\ fst (query demo_server "select id from users where id = %s;" (Some [VInt 0])
            false false (fresh demo_server)) <> Return (Some []).
Proof. repeat split. discriminate. Qed.

(** C9, amended: a [query] whose statement yields no row returns the
    absent value [None], with records or tuples requested alike and
    whatever the columns; [query] never returns an empty list. *)
Theorem query_zero_rows
    (server : list statement -> statement -> response)
    (q : string) (vals : option (list value)) (as_tuple no_resp : bool)
    (self : CoreDatabase) (c : nat) (p : Pool.t) (d : list string) :
  Pool.getconn (pool self) = Some (c, p) ->
  server (sent self) (q, vals) = ResultSet d [] ->
  fst (query server q vals as_tuple no_resp self) = Return None
  /\ forall (q' : string) (vals' : option (list value)) (t n : bool)
            (self' : CoreDatabase),
       fst (query server q' vals' t n self') <> Return (Some []).
Proof.
  intros Hg Hr. split.
  - rewrite query_eq, Hg, Hr. simpl. now destruct no_resp.
  - intros q' vals' t n self'. rewrite query_eq.
    destruct (Pool.getconn (pool self')) as [[c' p']|]; [| discriminate].
    apply answer_not_empty.
Qed.

Lemma query_zero_rows_witness :
  fst (query demo_server "select id from users where id = %s;" (Some [VInt 0])
         false false (fresh demo_server)) = Return None.
Proof.
  exact (proj1 (query_zero_rows demo_server "select id from users where id = %s;"
                  (Some [VInt 0]) false false (fresh demo_server) 1 _ ["id"]
                  eq_refl eq_refl)).
Defined.

(** ** The cache of [tables] *)

Section Cache.

Variable server : list statement -> statement -> response.

(** What [tables] returns is what the cache holds afterwards. *)
Lemma tables_result (self self1 : CoreDatabase) (tbls : list value) :
  tables server self = (Return tbls, self1) -> _tables self1 = Some tbls.
Proof.
  unfold tables.
  destruct (_tables self) as [[|t ts]|] eqn:E;
    [| intros [= <- <-]; exact E |];
    destruct (query _ _ _ _ _ _) as [[resp|e] s']; try discriminate;
    destruct resp as [[|x l]|]; try (now intros [= <- <-]);
    destruct (firsts _); try discriminate; now intros [= <- <-].
Qed.

(** A read of [tables] sends nothing, or the catalog query and nothing
    else. *)
Lemma tables_sent (self self1 : CoreDatabase) (o : outcome (list value)) :
  tables server self = (o, self1) ->
  sent self1 = sent self \/ sent self1 = sent self ++ [(catalog_query, None)].
Proof.
  unfold tables.
  assert (Hq : forall o' s', query server catalog_query None true false self = (o', s') ->
            sent s' = sent self \/ sent s' = sent self ++ [(catalog_query, None)]).
  { intros o' s'. rewrite query_eq.
    destruct (Pool.getconn (pool self)) as [[c p]|]; intros [= _ <-]; auto. }
  destruct (_tables self) as [[|t ts]|]; [| intros [= _ <-]; now left |];
    destruct (query _ _ _ _ _ _) as [[resp|e] s'] eqn:E; specialize (Hq _ _ eq_refl);
    try (now intros [= _ <-]);
    destruct resp as [[|x l]|]; try (now intros [= _ <-]);
    destruct (firsts _); now intros [= _ <-].
Qed.

(** With a non-empty list cached, any number of reads returns it and
    leaves the object as it is. *)
Lemma tables_calls_cached (self : CoreDatabase) (t : value) (ts : list value)
    (n : nat) :
  _tables self = Some (t :: ts) ->
  tables_calls server n self = (Return (replicate n (t :: ts)), self).
Proof.
  intros H. induction n as [|n IH]; [reflexivity |].
  cbn [tables_calls]. unfold bind. rewrite (tables_cached server self t ts H).
  now rewrite IH.
Qed.

End Cache.

(** A catalog without tables: the second read sends the catalog query
    again. *)
Lemma empty_catalog_is_queried_again :
  fst (tables bare_server (fresh bare_server)) = Return []
  /\ sent (snd (tables_calls bare_server 1 (fresh bare_server)))
     = sent (fresh bare_server) ++ [(catalog_query, None)]
  /\ sent (snd (tables_calls bare_server 2 (fresh bare_server)))
     = sent (fresh bare_server) ++ [(catalog_query, None); (catalog_query, None)].
Proof. repeat split. Qed.

(** C8, amended: a read of [tables] sends at most the catalog query; once
    a read has returned a non-empty list, every later read returns that
    list and sends nothing; while the cached list is empty, because the
    catalog query listed no table or was never run, each read sends the
    catalog query again. *)
Theorem tables_cached_when_non_empty
    (server : list statement -> statement -> response)
    (self self1 : CoreDatabase) (tbls : list value) (n : nat) :
  tables server self = (Return tbls, self1) ->
  tbls <> [] ->
  (sent self1 = sent self \/ sent self1 = sent self ++ [(catalog_query, None)])
  /\ tables_calls server n self1 = (Return (replicate n tbls), self1)
  /\ forall (s : CoreDatabase) (c : nat) (p : Pool.t),
       _tables s = None \/ _tables s = Some [] ->
       Pool.getconn (pool s) = Some (c, p) ->
       sent (snd (tables server s)) = sent s ++ [(catalog_query, None)].
Proof.
  intros Ht Hne. split; [| split].
  - eapply tables_sent, Ht.
  - apply tables_result in Ht. destruct tbls as [|t ts]; [contradiction |].
    now apply tables_calls_cached.
  - intros s c p. apply tables_miss.
Qed.

Lemma tables_cached_when_non_empty_witness :
  tables_calls demo_server 3 (warm demo_server)
  = (Return (replicate 3 [VStr "users"; VStr "logs"]), warm demo_server).
Proof.
  refine (proj1 (proj2 (tables_cached_when_non_empty demo_server
                          (fresh demo_server) (warm demo_server)
                          [VStr "users"; VStr "logs"] 3 eq_refl _))).
  discriminate.
Defined.

(** ** Unknown tables *)

(** [insert] on a table the cache does not list: the statement is sent. *)
Lemma insert_unknown_table_is_sent :
  _tables (warm demo_server) = Some [VStr "users"; VStr "logs"]
  /\ table_in "ghost" [VStr "users"; VStr "logs"] = false
  /\ fst (insert demo_server "ghost" (OneRecord [("a", VInt 1)]) None
            (warm demo_server)) = Return tt
  /\ sent (snd (insert demo_server "ghost" (OneRecord [("a", VInt 1)]) None
                  (warm demo_server)))
     = sent (warm demo_server) ++
       [("insert into ghost (a) VALUES (%s) ON CONFLICT DO NOTHING;", Some [VInt 1])].
Proof. repeat split. Qed.

(** C2, amended: for a table name absent from the Schema Cache, [select]
    raises the layer's [KeyError] and sends no statement of its own: at
    most the catalog query of the cache itself has gone out, and nothing
    at all when the cache already held a list.  [insert] does not consult
    the cache: it sends its statement, and its outcome is the driver's. *)
Theorem unknown_table
    (server : list statement -> statement -> response)
    (table field : string) (where_ : option dict) (limit : option Z)
    (data : insert_data) (upsert_on : option string)
    (self self1 : CoreDatabase) (tbls : list value)
    (first : dict) (rest : list dict) (c : nat) (p : Pool.t) :
  tables server self = (Return tbls, self1) ->
  table_in table tbls = false ->
  force_list data = first :: rest ->
  Pool.getconn (pool self) = Some (c, p) ->
  let st := insert_statement table first (first :: rest) upsert_on in
  select server table field where_ limit self =
    (Raise (KeyError ("Table " +:+ dquote +:+ table +:+ dquote
                        +:+ " is unavailable in current database.")), self1)
  /\ (sent self1 = sent self \/ sent self1 = sent self ++ [(catalog_query, None)])
  /\ (forall t ts, _tables self = Some (t :: ts) -> self1 = self)
  /\ insert server table data upsert_on self =
       (match answer false true (server (sent self) st) with
        | Return _ => Return tt
        | Raise e => Raise e
        end,
        after_scope self c p st)
  /\ sent (snd (insert server table data upsert_on self)) = sent self ++ [st].
Proof.
  intros Ht Hin Hd Hg st. repeat split.
  - now apply select_unknown with (tbls := tbls).
  - eapply tables_sent, Ht.
  - intros t ts Hc. rewrite (tables_cached server self t ts Hc) in Ht.
    now injection Ht.
  - rewrite insert_eq, Hd. cbv zeta. now rewrite Hg.
  - rewrite insert_eq, Hd. cbv zeta. now rewrite Hg.
Qed.

Lemma unknown_table_witness :
  select demo_server "ghost" "*" None None (warm demo_server)
  = (Raise (KeyError ("Table " +:+ dquote +:+ "ghost" +:+ dquote
                        +:+ " is unavailable in current database.")),
     warm demo_server).
Proof.
  exact (proj1 (unknown_table demo_server "ghost" "*" None None
                  (OneRecord [("a", VInt 1)]) None
                  (warm demo_server) (warm demo_server)
                  [VStr "users"; VStr "logs"] [("a", VInt 1)] [] 2 _
                  eq_refl eq_refl eq_refl eq_refl)).
Defined.

(** ** The cursor scope and the pool *)

Lemma putconn_close_closed (c : nat) (q : Pool.t) :
  Pool.is_closed c (Pool.putconn c (Pool.close c q)) = true.
Proof.
  pose proof (is_closed_close c q) as Hq.
  unfold Pool.putconn. rewrite Hq.
  destruct (_ <? _)%nat; [exact Hq | apply is_closed_close].
Qed.

(** Whatever the body does, the connection the scope took is closed when
    the scope ends. *)
Lemma cursor_closes_connection {A : Type} (body : nat -> M A)
    (self : CoreDatabase) (c : nat) (p : Pool.t) :
  Pool.getconn (pool self) = Some (c, p) ->
  Pool.is_closed c (pool (snd (cursor body self))) = true.
Proof.
  intros Hg. unfold cursor. rewrite Hg.
  destruct (body c _) as [r self2]. apply putconn_close_closed.
Qed.

(** A [query] hands its connection back: none is out afterwards. *)
Lemma query_free (server : list statement -> statement -> response)
    (q : string) (vals : option (list value)) (as_tuple no_resp : bool)
    (self : CoreDatabase) :
  Pool.free (pool self) ->
  Pool.free (pool (snd (query server q vals as_tuple no_resp self))).
Proof.
  intros Hf. rewrite query_eq.
  destruct (getconn_free _ Hf) as (c & p & Hg & _). rewrite Hg.
  eapply release_free; eauto.
Qed.

(** The connection of a [query] is closed and does not return to the idle
    list: the list only loses the connection that was taken. *)
Lemma query_discards_connection
    (server : list statement -> statement -> response)
    (q : string) (vals : option (list value)) (as_tuple no_resp : bool)
    (self : CoreDatabase) (c : nat) (p : Pool.t) :
  Pool.getconn (pool self) = Some (c, p) ->
  Pool.is_closed c (pool (snd (query server q vals as_tuple no_resp self))) = true
  /\ Pool._pool (pool (snd (query server q vals as_tuple no_resp self)))
     = removelast (Pool._pool (pool self)).
Proof.
  intros Hg. rewrite query_eq, Hg. cbn [snd after_scope pool]. split.
  - apply release_closed.
  - now apply release_idle.
Qed.

(** C1: the scope closes the connection before it hands it to the pool.
    On a new object, the constructor's query runs on the connection the
    pool opened at its creation, the next two queries run on connections
    one and two, opened for them; afterwards three connections exist, all
    closed, none is idle and none is out. *)
Theorem connections_are_not_reused :
  let s0 := fresh demo_server in
  let s1 := snd (query demo_server "select 1" None true false s0) in
  let s2 := snd (query demo_server "select 1" None true false s1) in
  Pool._pool (Pool.create 1 5) = [0]
  /\ fst <$> Pool.getconn (pool s0) = Some 1
  /\ fst <$> Pool.getconn (pool s1) = Some 2
  /\ Pool.conns (pool s2)
     = [Pool.Connection true true; Pool.Connection true true;
        Pool.Connection true true]
  /\ Pool._pool (pool s2) = []
  /\ Pool._used (pool s2) = [].
Proof. repeat split. Qed.

(** * Further properties of the layer *)

(** ** Connections across the operations *)

Section Connections.

Variable server : list statement -> statement -> response.





End Connections.



(** ** Construction *)

(** X2: the constructor sends the bootstrap statement and nothing else,
    leaves the table list unset and no connection checked out; it
    succeeds exactly when that statement yields a row, and then [db] holds
    the whole first row, a tuple, not the name inside it.  No row makes it
    raise [TypeError], a statement without result set [ProgrammingError],
    and a failure of the driver is raised as it is. *)
Theorem construction (server : list statement -> statement -> response) :
  sent (snd (__init__ server)) = [("SELECT current_database()", None)]
  /\ _tables (snd (__init__ server)) = None
  /\ Pool.free (pool (snd (__init__ server)))
  /\ match server [] ("SELECT current_database()", None) with
     | Failure e =>
         fst (__init__ server) = Raise (DriverError e)
         /\ db (snd (__init__ server)) = None
     | Completed =>
         fst (__init__ server) = Raise ProgrammingError
         /\ db (snd (__init__ server)) = None
     | ResultSet _ [] =>
         fst (__init__ server) = Raise TypeError
         /\ db (snd (__init__ server)) = None
     | ResultSet _ (r :: _) =>
         fst (__init__ server) = Return tt
         /\ db (snd (__init__ server)) = Some (Tuple r)
     end.
Proof.
  unfold __init__, __post_init__. rewrite query_eq. cbn [Pool.getconn Pool.create
    Pool._pool seq last pool sent after_scope].
  destruct (server [] ("SELECT current_database()", None)) as [e| |d [|r rows]];
    cbn [answer shape negb map fst snd sent _tables pool db];
    (repeat split; try reflexivity; discriminate).
Qed.

(** ** What [insert] and [delete] return *)

(** X3: [insert] of a non-empty batch returns nothing whatever the server
    answers short of a failure, rows included, and a failure of the driver
    is raised unchanged; either way the statement went out. *)
Theorem insert_outcome
    (server : list statement -> statement -> response)
    (table : string) (data : insert_data) (upsert_on : option string)
    (first : dict) (rest : list dict) (self : CoreDatabase) :
  force_list data = first :: rest ->
  Pool.free (pool self) ->
  let st := insert_statement table first (first :: rest) upsert_on in
  fst (insert server table data upsert_on self)
  = match server (sent self) st with
    | Failure e => Raise (DriverError e)
    | _ => Return tt
    end
  /\ sent (snd (insert server table data upsert_on self)) = sent self ++ [st]
  /\ _tables (snd (insert server table data upsert_on self)) = _tables self.
Proof.
  intros Hd Hf st. rewrite insert_eq, Hd. cbv zeta.
  destruct (getconn_free _ Hf) as (c & p & Hg & _). rewrite Hg.
  cbn [fst snd after_scope sent _tables]. fold st.
  split; [| split; reflexivity].
  now destruct (server (sent self) st).
Qed.

Lemma insert_outcome_witness :
  fst (insert demo_server "users" (OneRecord [("id", VInt 3)]) None (fresh demo_server))
  = Return tt.
Proof.
  refine (proj1 (insert_outcome demo_server "users" (OneRecord [("id", VInt 3)]) None
                   [("id", VInt 3)] [] (fresh demo_server) eq_refl _)).
  split; [reflexivity | discriminate].
Defined.

(** X4: [delete] asks [query] for records, so a statement that completes
    without a result set, as a plain delete does, makes it raise
    [TypeError] after the statement has gone out; it returns only when
    the statement yields a result set, and a failure of the driver is
    raised unchanged. *)
Theorem delete_outcome
    (server : list statement -> statement -> response)
    (table : string) (where_ : dict) (self : CoreDatabase) :
  Pool.free (pool self) ->
  let st := delete_statement table where_ in
  fst (delete server table where_ self)
  = match server (sent self) st with
    | Failure e => Raise (DriverError e)
    | Completed => Raise TypeError
    | ResultSet _ _ => Return tt
    end
  /\ sent (snd (delete server table where_ self)) = sent self ++ [st].
Proof.
  intros Hf st. rewrite delete_eq. cbv zeta.
  destruct (getconn_free _ Hf) as (c & p & Hg & _). rewrite Hg.
  cbn [fst snd after_scope sent]. fold st. split; [| reflexivity].
  now destruct (server (sent self) st).
Qed.

Lemma delete_outcome_witness :
  fst (delete demo_server "users" [("id", VInt 1)] (fresh demo_server))
  = Raise TypeError
  /\ sent (snd (delete demo_server "users" [("id", VInt 1)] (fresh demo_server)))
     = sent (fresh demo_server) ++ [("delete from users where id is %s", Some [VInt 1])].
Proof.
  refine (delete_outcome demo_server "users" [("id", VInt 1)] (fresh demo_server) _).
  split; [reflexivity | discriminate].
Defined.

(** ** Records *)

Lemma setitem_keys (d : dict) (k : string) (v : value) :
  map fst (setitem d k v)
  = if bool_decide (k ∈ map fst d) then map fst d else map fst d ++ [k].
Proof.
  induction d as [|[k' v'] d IH]; [reflexivity |]. cbn [setitem map fst].
  destruct (String.eqb_spec k' k) as [->|Hne].
  - rewrite bool_decide_eq_true_2 by apply list_elem_of_here. reflexivity.
  - cbn [map fst]. rewrite IH.
    destruct (bool_decide (k ∈ map fst d)) eqn:E.
    + apply bool_decide_eq_true_1 in E.
      rewrite bool_decide_eq_true_2 by now apply list_elem_of_further.
      reflexivity.
    + apply bool_decide_eq_false_1 in E.
      rewrite bool_decide_eq_false_2; [reflexivity |].
      intros [?|?]%elem_of_cons; congruence.
Qed.

Lemma setitem_keys_nodup (d : dict) (k : string) (v : value) :
  NoDup (map fst d) -> NoDup (map fst (setitem d k v)).
Proof.
  intros Hd. rewrite setitem_keys.
  destruct (bool_decide (k ∈ map fst d)) eqn:E; [exact Hd |].
  apply bool_decide_eq_false_1 in E.
  apply NoDup_app. repeat split; [exact Hd | | apply NoDup_singleton].
  intros x Hx ->%list_elem_of_singleton. contradiction.
Qed.

Lemma setitem_fresh (d : dict) (k : string) (v : value) :
  k ∉ map fst d -> setitem d k v = d ++ [(k, v)].
Proof.
  induction d as [|[k' v'] d IH]; intros Hk; [reflexivity |].
  cbn [setitem]. cbn [map fst] in Hk. apply not_elem_of_cons in Hk as [Hne Hk].
  destruct (String.eqb_spec k' k) as [->|_]; [congruence |].
  now rewrite IH.
Qed.

Lemma getitem_setitem (d : dict) (k k' : string) (v : value) :
  getitem (setitem d k v) k' = if String.eqb k k' then Some v else getitem d k'.
Proof.
  induction d as [|[k0 v0] d IH]; cbn [setitem getitem].
  - reflexivity.
  - destruct (String.eqb_spec k0 k) as [->|Hne]; cbn [getitem].
    + now destruct (String.eqb_spec k k').
    + rewrite IH. destruct (String.eqb_spec k0 k') as [->|_]; [| reflexivity].
      destruct (String.eqb_spec k k'); congruence.
Qed.

Lemma getitem_app (d1 d2 : dict) (k : string) :
  getitem (d1 ++ d2) k
  = match getitem d1 k with Some v => Some v | None => getitem d2 k end.
Proof.
  induction d1 as [|[k0 v0] d1 IH]; [reflexivity |].
  cbn [app getitem]. now destruct (String.eqb k0 k).
Qed.

Section Fold.

Let step := fun (d : dict) (kv : string * value) => setitem d (fst kv) (snd kv).

Lemma fold_setitem_nodup (l d : dict) :
  NoDup (map fst d) -> NoDup (map fst (fold_left step l d)).
Proof.
  revert d. induction l as [|[k v] l IH]; intros d Hd; [exact Hd |].
  apply IH, setitem_keys_nodup, Hd.
Qed.

Lemma fold_setitem_last (l d : dict) (k : string) :
  getitem (fold_left step l d) k
  = match getitem (reverse l) k with Some v => Some v | None => getitem d k end.
Proof.
  revert d. induction l as [|[k0 v0] l IH]; intros d; [reflexivity |].
  cbn [fold_left]. rewrite IH, reverse_cons, getitem_app. unfold step.
  cbn [fst snd getitem]. rewrite getitem_setitem.
  destruct (getitem (reverse l) k); [reflexivity |].
  now destruct (String.eqb k0 k).
Qed.

Lemma fold_setitem_distinct (l d : dict) :
  NoDup (map fst d ++ map fst l) -> fold_left step l d = d ++ l.
Proof.
  revert d. induction l as [|[k v] l IH]; intros d Hd.
  - now rewrite app_nil_r.
  - cbn [fold_left]. unfold step at 2. cbn [fst snd].
    cbn [map fst] in Hd.
    assert (Hk : k ∉ map fst d).
    { apply NoDup_app in Hd as (_ & Hd & _). intros Hin.
      apply (Hd k Hin), list_elem_of_here. }
    rewrite (setitem_fresh d k v Hk), IH.
    + now rewrite <- app_assoc.
    + rewrite map_app. cbn [map fst]. now rewrite <- app_assoc.
Qed.

End Fold.

Lemma zip_keys_nodup (cols : list string) (r : row) :
  NoDup cols -> NoDup (map fst (zip cols r)).
Proof.
  revert r. induction cols as [|k cols IH]; intros r Hc; [constructor |].
  destruct r as [|v r]; [constructor |].
  apply NoDup_cons in Hc as [Hk Hc]. cbn [zip zip_with map fst].
  apply NoDup_cons. split; [| now apply IH].
  intros Hin. apply Hk. clear -Hin. revert r Hin.
  induction cols as [|k' cols IHc]; intros [|v' r] Hin; cbn in Hin;
    try (now apply elem_of_nil in Hin).
  apply elem_of_cons in Hin as [->|Hin]; [apply list_elem_of_here |].
  apply list_elem_of_further. eapply IHc, Hin.
Qed.

Lemma make_record_distinct (cols : list string) (r : row) :
  NoDup cols -> make_record cols r = zip cols r.
Proof.
  intros Hc. unfold make_record. rewrite fold_setitem_distinct; [reflexivity |].
  cbn [map app]. now apply zip_keys_nodup.
Qed.

(** X5: the record made of a row has each column name once; under a name
    it holds the last value the row has for that name; and when the column
    names are distinct it is the row's values paired with the names in
    order. *)
Theorem record_of_row (cols : list string) (r : row) :
  NoDup (map fst (make_record cols r))
  /\ (forall k, getitem (make_record cols r) k = getitem (reverse (zip cols r)) k)
  /\ (NoDup cols -> make_record cols r = zip cols r).
Proof.
  unfold make_record. split; [| split].
  - apply fold_setitem_nodup. constructor.
  - intros k. rewrite fold_setitem_last. cbn [getitem].
    now destruct (getitem (reverse (zip cols r)) k).
  - intros Hc. unfold make_record in *. fold (make_record cols r).
    now apply make_record_distinct.
Qed.

(** Two columns of the same name leave one key, with the later value. *)
Example record_of_joined_row :
  make_record ["id"; "name"; "id"] [VInt 1; VStr "al"; VInt 7]
  = [("id", VInt 7); ("name", VStr "al")].
Proof. reflexivity. Qed.

(** ** What [tables] and [select] fetch *)

Lemma firsts_heads (rows : list row) :
  firsts (filter (fun x => truthy_item x = true) (map Tuple rows))
  = Return (omap head rows).
Proof.
  induction rows as [|[|v t] rows IH]; [reflexivity | |].
  - cbn [map omap list_omap head]. rewrite filter_cons_False; [exact IH |].
    cbn. discriminate.
  - cbn [map omap list_omap head]. rewrite filter_cons_True by reflexivity.
    cbn [firsts getitem0]. now rewrite IH.
Qed.

Section Fetch.

Variable server : list statement -> statement -> response.

(** A read of [tables] with nothing cached, by the server's answer. *)
Lemma tables_fetch (self : CoreDatabase) (c : nat) (p : Pool.t) :
  _tables self = None \/ _tables self = Some [] ->
  Pool.getconn (pool self) = Some (c, p) ->
  tables server self
  = match server (sent self) (catalog_query, None) with
    | Failure e =>
        (Raise (DriverError e), after_scope self c p (catalog_query, None))
    | Completed =>
        (Raise ProgrammingError, after_scope self c p (catalog_query, None))
    | ResultSet _ rows =>
        (Return (omap head rows),
         Self (db self) (Some (omap head rows)) (Pool.release c p)
              (sent self ++ [(catalog_query, None)]))
    end.
Proof.
  intros H Hg. unfold tables.
  assert (E : tables server self =
              match query server catalog_query None true false self with
              | (Raise e, self') => (Raise e, self')
              | (Return resp, self') =>
                  match match resp with
                        | None | Some [] => Return []
                        | Some l => firsts (filter (fun x => truthy_item x = true) l)
                        end with
                  | Raise e => (Raise e, self')
                  | Return ts =>
                      (Return ts, Self (db self') (Some ts) (pool self') (sent self'))
                  end
              end).
  { unfold tables. now destruct H as [-> | ->]. }
  unfold tables in E. rewrite E, query_eq, Hg. clear E.
  destruct (server (sent self) (catalog_query, None)) as [e| |d [|r rows]];
    cbn [answer shape negb]; try reflexivity.
  change (Tuple r :: map Tuple rows) with (map Tuple (r :: rows)).
  cbn [map]. change (Tuple r :: map Tuple rows) with (map Tuple (r :: rows)).
  now rewrite firsts_heads.
Qed.

End Fetch.

(** X6: with nothing cached, a read of [tables] sends the catalog query;
    from a result set it returns and caches the first value of every
    non-empty row, in order; when the driver fails, or the statement has
    no result set, it raises and caches nothing, so that the next read
    asks again. *)
Theorem tables_first_read
    (server : list statement -> statement -> response)
    (self : CoreDatabase) (c : nat) (p : Pool.t) :
  _tables self = None \/ _tables self = Some [] ->
  Pool.getconn (pool self) = Some (c, p) ->
  sent (snd (tables server self)) = sent self ++ [(catalog_query, None)]
  /\ match server (sent self) (catalog_query, None) with
     | Failure e =>
         fst (tables server self) = Raise (DriverError e)
         /\ _tables (snd (tables server self)) = _tables self
     | Completed =>
         fst (tables server self) = Raise ProgrammingError
         /\ _tables (snd (tables server self)) = _tables self
     | ResultSet _ rows =>
         fst (tables server self) = Return (omap head rows)
         /\ _tables (snd (tables server self)) = Some (omap head rows)
     end.
Proof.
  intros H Hg. rewrite (tables_fetch server self c p H Hg).
  destruct (server (sent self) (catalog_query, None)); now repeat split.
Qed.

Lemma tables_first_read_witness :
  fst (tables demo_server (fresh demo_server)) = Return [VStr "users"; VStr "logs"]
  /\ _tables (snd (tables demo_server (fresh demo_server)))
     = Some [VStr "users"; VStr "logs"].
Proof.
  exact (proj2 (tables_first_read demo_server (fresh demo_server) 1 _
                  (or_introl eq_refl) eq_refl)).
Defined.

(** X7: the first [select] on an object fills the cache on its way: the
    catalog query goes out first; if the table is among the names it
    lists, the select statement follows and the names stay cached; if it
    is not, [select] raises [KeyError] and the catalog query is all that
    was sent. *)
Theorem select_fills_the_cache
    (server : list statement -> statement -> response)
    (table field : string) (where_ : option dict) (limit : option Z)
    (self : CoreDatabase) (d : list string) (rows : list row) :
  _tables self = None \/ _tables self = Some [] ->
  Pool.free (pool self) ->
  server (sent self) (catalog_query, None) = ResultSet d rows ->
  _tables (snd (select server table field where_ limit self)) = Some (omap head rows)
  /\ if table_in table (omap head rows)
     then sent (snd (select server table field where_ limit self))
          = sent self ++ [(catalog_query, None);
                          select_statement table field where_ limit]
     else sent (snd (select server table field where_ limit self))
          = sent self ++ [(catalog_query, None)]
          /\ exists msg,
               fst (select server table field where_ limit self) = Raise (KeyError msg).
Proof.
  intros H Hf Hr.
  destruct (getconn_free _ Hf) as (c & p & Hg & _).
  pose proof (tables_fetch server self c p H Hg) as Ht. rewrite Hr in Ht.
  assert (Hf1 : Pool.free (pool (Self (db self) (Some (omap head rows))
                                      (Pool.release c p)
                                      (sent self ++ [(catalog_query, None)]))))
    by (eapply release_free; eauto).
  destruct (table_in table (omap head rows)) eqn:Hin.
  - destruct (getconn_free _ Hf1) as (c1 & p1 & Hg1 & _).
    rewrite (select_known server table field where_ limit self _ _ c1 p1 Ht Hin Hg1).
    cbv zeta. cbn [snd after_scope sent _tables]. split; [reflexivity |].
    now rewrite <- app_assoc.
  - rewrite (select_unknown server table field where_ limit self _ _ Ht Hin).
    cbn [fst snd sent _tables]. repeat split. eauto.
Qed.

Lemma select_fills_the_cache_witness :
  _tables (snd (select demo_server "users" "id" None None (fresh demo_server)))
  = Some [VStr "users"; VStr "logs"]
  /\ sent (snd (select demo_server "users" "id" None None (fresh demo_server)))
     = sent (fresh demo_server) ++ [(catalog_query, None); ("select id from users;", None)].
Proof.
  refine (select_fills_the_cache demo_server "users" "id" None None
            (fresh demo_server) ["table_name"] [[VStr "users"]; [VStr "logs"]]
            (or_introl eq_refl) _ eq_refl).
  split; [reflexivity | discriminate].
Defined.

(** X8: a [select] of the wildcard or of a list of fields on a known table
    returns one record per row, in row order, made of the column names the
    statement reports: the row's values paired with the names when these
    are distinct.  When the statement reports no column, the rows are
    dropped and the list is empty. *)
Theorem select_returns_records
    (server : list statement -> statement -> response)
    (table field : string) (where_ : option dict) (limit : option Z)
    (self self1 : CoreDatabase) (tbls : list value) (c : nat) (p : Pool.t)
    (d : list string) (rows : list row) :
  tables server self = (Return tbls, self1) ->
  table_in table tbls = true ->
  Pool.getconn (pool self1) = Some (c, p) ->
  field = "*" \/ str_in "," field = true ->
  server (sent self1) (select_statement table field where_ limit) = ResultSet d rows ->
  fst (select server table field where_ limit self)
  = Return (match d with
            | [] => []
            | _ => map (fun r => Record (make_record d r)) rows
            end)
  /\ (d <> [] -> NoDup d ->
      fst (select server table field where_ limit self)
      = Return (map (fun r => Record (zip d r)) rows)).
Proof.
  intros Ht Hin Hg Hfield Hr.
  assert (Hs : single_field field = false).
  { destruct (single_field field) eqn:E; [| reflexivity].
    apply single_field_spec in E as [E1 E2]. destruct Hfield; congruence. }
  assert (Hsel : fst (select server table field where_ limit self)
                 = Return (match d with
                           | [] => []
                           | _ => map (fun r => Record (make_record d r)) rows
                           end)).
  { rewrite (select_known server table field where_ limit self self1 tbls c p Ht Hin Hg).
    cbv zeta. rewrite Hr, Hs. cbn [fst answer negb].
    destruct rows as [|r rows]; [now destruct d |].
    destruct d as [|k d]; reflexivity. }
  split; [exact Hsel |].
  intros Hd Hnd. rewrite Hsel. destruct d as [|k d]; [contradiction |].
  f_equal. apply map_ext. intros r. f_equal.
  now apply make_record_distinct.
Qed.

Lemma select_returns_records_witness :
  fst (select demo_server "users" "*" None None (fresh demo_server))
  = Return [Record [("id", VInt 1); ("name", VStr "al")];
            Record [("id", VInt 2); ("name", VStr "bo")]].
Proof.
  exact (proj1 (select_returns_records demo_server "users" "*" None None
                  (fresh demo_server) (warm demo_server)
                  [VStr "users"; VStr "logs"] 2 _ ["id"; "name"]
                  [[VInt 1; VStr "al"]; [VInt 2; VStr "bo"]]
                  eq_refl eq_refl eq_refl (or_introl eq_refl) eq_refl)).
Defined.

(** ** Placeholders and parameters *)

Lemma placeholders_app (a b : string) :
  placeholders (a +:+ b) = placeholders a + placeholders b.
Proof.
  unfold placeholders. induction a as [|x a IH]; [reflexivity |].
  rewrite append_cons. cbn [count_char]. rewrite IH. lia.
Qed.

Lemma placeholders_join (sep : string) (l : list string) (n : nat) :
  placeholders sep = 0 ->
  Forall (fun s => placeholders s = n) l ->
  placeholders (join sep l) = length l * n.
Proof.
  intros Hsep Hl. unfold join.
  induction Hl as [|s l Hs Hl IH]; [reflexivity |].
  destruct l as [|s' l].
  - cbn [String.concat length]. lia.
  - change (String.concat sep (s :: s' :: l))
      with (s +:+ sep +:+ String.concat sep (s' :: l)).
    rewrite !placeholders_app, IH, Hs, Hsep. cbn [length]. lia.
Qed.

Lemma placeholders_uint (d : Decimal.uint) :
  placeholders (NilEmpty.string_of_uint d) = 0.
Proof.
  unfold placeholders. induction d; cbn; try reflexivity; exact IHd.
Qed.

Lemma placeholders_str_of_int (n : Z) : placeholders (str_of_int n) = 0.
Proof.
  unfold str_of_int, NilZero.string_of_int, NilZero.string_of_uint.
  destruct (Z.to_int n) as [d|d]; destruct d;
    try reflexivity; try apply placeholders_uint;
    apply (placeholders_uint (Decimal.D0 _)) || idtac.
Qed.

Ltac count_literals :=
  repeat match goal with
         | |- context [placeholders (String ?a ?s)] =>
             let n := eval vm_compute in (placeholders (String a s)) in
             change (placeholders (String a s)) with n
         end.

Lemma placeholders_comparator (v : value) : placeholders (comparator_of v) = 0.
Proof.
  unfold comparator_of, get_comparator.
  destruct v as [| b | z | bits | s]; try reflexivity.
  destruct (str_in "null" s); [destruct (str_in "not" s) |]; reflexivity.
Qed.

Lemma placeholders_limit (limit : option Z) : placeholders (limit_suffix limit) = 0.
Proof.
  destruct limit as [n|]; [| reflexivity]. unfold limit_suffix.
  destruct (n =? 0)%Z; [reflexivity |].
  rewrite placeholders_app, placeholders_str_of_int. reflexivity.
Qed.

Lemma bound_tuple_or_none (l : list value) : bound (tuple_or_none l) = length l.
Proof. now destruct l. Qed.

(** X9: in the statement [select] builds, every condition brings one
    placeholder and one parameter: when the table, the field list and the
    keys of the where mapping have no percent sign, the text has exactly as
    many placeholders as parameters are bound, one per pair of the
    mapping. *)
Theorem select_placeholders_match
    (table field : string) (where_ : option dict) (limit : option Z) :
  placeholders table = 0 ->
  placeholders field = 0 ->
  Forall (fun kv => placeholders (fst kv) = 0) (where_items where_) ->
  placeholders (fst (select_statement table field where_ limit))
  = bound (snd (select_statement table field where_ limit))
  /\ bound (snd (select_statement table field where_ limit))
     = length (where_items where_).
Proof.
  intros Ht Hf Hk.
  assert (Hw : placeholders (fst (select_where where_)) = length (where_items where_)
               /\ length (snd (select_where where_)) = length (where_items where_)).
  { destruct where_ as [[|kv w]|]; try (split; reflexivity).
    cbn [where_items] in *. unfold select_where. rewrite select_loop.
    cbn [fst snd app]. rewrite placeholders_app, length_map. split; [| reflexivity].
    rewrite (placeholders_join _ _ 1); [| reflexivity |].
    - count_literals. rewrite length_map. lia.
    - apply Forall_map. eapply Forall_impl; [exact Hk |].
      intros [k v] Hkv. cbn [fst snd] in *.
      rewrite !placeholders_app, Hkv, placeholders_comparator. reflexivity. }
  destruct Hw as [Hw1 Hw2]. unfold select_statement.
  destruct (select_where where_) as [w pv]. cbn [fst snd] in *.
  rewrite bound_tuple_or_none, !placeholders_app, Ht, Hf, Hw1, placeholders_limit.
  count_literals. split; lia.
Qed.

Lemma select_placeholders_match_witness :
  placeholders (fst (select_statement "users" "id, name"
                       (Some [("name", VStr "al%"); ("id", VInt 3)]) (Some 5%Z)))
  = 2.
Proof.
  pose proof (select_placeholders_match "users" "id, name"
                (Some [("name", VStr "al%"); ("id", VInt 3)]) (Some 5%Z)
                eq_refl eq_refl) as H.
  refine (eq_trans (proj1 (H _)) (proj2 (H _)));
    repeat constructor.
Defined.

(** X10: the statement [delete] builds has one placeholder and one
    parameter per pair of the where mapping, when the table and the keys
    have no percent sign; with an empty mapping it has none of either and
    ends after [where]. *)
Theorem delete_placeholders_match (table : string) (where_ : dict) :
  placeholders table = 0 ->
  Forall (fun kv => placeholders (fst kv) = 0) where_ ->
  placeholders (fst (delete_statement table where_)) = length where_
  /\ bound (snd (delete_statement table where_)) = length where_
  /\ (where_ = [] ->
      delete_statement table where_
      = ("delete from " +:+ table +:+ " where ", Some [])).
Proof.
  intros Ht Hk. unfold delete_statement. rewrite delete_loop. cbn [fst snd app bound].
  rewrite length_map, !placeholders_app, Ht. split; [| split; [reflexivity |]].
  - rewrite (placeholders_join _ _ 1); [| reflexivity |].
    + count_literals. rewrite length_map. lia.
    + apply Forall_map. eapply Forall_impl; [exact Hk |].
      intros [k v] Hkv. cbn [fst snd] in *.
      rewrite !placeholders_app, Hkv. now destruct (isinstance_str v).
  - intros ->. reflexivity.
Qed.

Lemma delete_placeholders_match_witness :
  placeholders (fst (delete_statement "users" [("name", VStr "al%"); ("id", VInt 3)]))
  = 2.
Proof.
  refine (proj1 (delete_placeholders_match "users"
                   [("name", VStr "al%"); ("id", VInt 3)] eq_refl _)).
  repeat constructor.
Defined.

Lemma length_concat_uniform {A : Type} (n : nat) (ls : list (list A)) :
  Forall (fun l => length l = n) ls -> length (concat ls) = length ls * n.
Proof.
  induction 1 as [|l ls Hl Hls IH]; [reflexivity |].
  cbn [concat length]. rewrite length_app, IH, Hl. lia.
Qed.

(** X11: the statement [insert] builds has one placeholder per record and
    column of the first record, when the table, the keys of the first
    record and [upsert_on] have no percent sign.  The parameters are all
    the values of all the records, so the two numbers agree when every
    record has as many keys as the first; nothing in [insert] checks
    that. *)
Theorem insert_placeholders_match
    (table : string) (first : dict) (rest : list dict) (upsert_on : option string) :
  placeholders table = 0 ->
  Forall (fun kv => placeholders (fst kv) = 0) first ->
  match upsert_on with Some u => placeholders u = 0 | None => True end ->
  let st := insert_statement table first (first :: rest) upsert_on in
  placeholders (fst st) = length (first :: rest) * length first
  /\ bound (snd st) = length (concat (first :: rest))
  /\ (Forall (fun r => length r = length first) rest ->
      placeholders (fst st) = bound (snd st)).
Proof.
  intros Ht Hk Hu st.
  assert (Hkls : Forall (fun s => placeholders s = 0) (map fst first))
    by (apply Forall_map; exact Hk).
  assert (Hks : placeholders (join ", " (map fst first)) = 0).
  { rewrite (placeholders_join _ _ 0); [lia | reflexivity | exact Hkls]. }
  assert (Hkvs : placeholders ("(" +:+ join ", " (map (fun _ => "%s") (map fst first)) +:+ ")")
                 = length first).
  { rewrite !placeholders_app, (placeholders_join _ _ 1); [| reflexivity |].
    - count_literals. rewrite !length_map. lia.
    - apply Forall_map, Forall_forall. reflexivity. }
  assert (Hex : placeholders (join ", " (map (fun k => "EXCLUDED." +:+ k) (map fst first)))
                = 0).
  { rewrite (placeholders_join _ _ 0); [lia | reflexivity |].
    apply Forall_map. eapply Forall_impl; [exact Hkls |].
    intros k Hk0. cbn beta. rewrite placeholders_app, Hk0. reflexivity. }
  assert (Hvks : placeholders
                   (join ", "
                      (map (fun _ : dict =>
                              "(" +:+ join ", " (map (fun _ => "%s") (map fst first)) +:+ ")")
                         (first :: rest)))
                 = length (first :: rest) * length first).
  { rewrite (placeholders_join _ _ (length first)); [| reflexivity |].
    - now rewrite length_map.
    - apply Forall_map, Forall_forall. intros; exact Hkvs. }
  assert (H1 : placeholders (fst st) = length (first :: rest) * length first).
  { subst st. unfold insert_statement. cbv zeta. cbn [fst].
    destruct upsert_on as [[|a u]|];
      rewrite !placeholders_app, ?Hu, Ht, Hks, Hvks, ?Hex;
      count_literals; lia. }
  assert (H2 : bound (snd st) = length (concat (first :: rest))).
  { subst st. unfold insert_statement. cbv zeta. cbn [snd bound].
    rewrite <- !(length_map snd (concat _)). f_equal.
    generalize (first :: rest). intros ls.
    induction ls as [|l ls IH]; [reflexivity |].
    cbn [map concat]. now rewrite map_app, IH. }
  split; [exact H1 | split; [exact H2 |]].
  intros Hrest. rewrite H1, H2.
  symmetry. apply length_concat_uniform. now constructor.
Qed.

Lemma insert_placeholders_match_witness :
  placeholders (fst (insert_statement "users" [("id", VInt 3); ("name", VStr "cy")]
                       [[("id", VInt 3); ("name", VStr "cy")];
                        [("id", VInt 4); ("name", VStr "di")]] (Some "id")))
  = 4.
Proof.
  refine (proj1 (insert_placeholders_match "users"
                   [("id", VInt 3); ("name", VStr "cy")]
                   [[("id", VInt 4); ("name", VStr "di")]] (Some "id")
                   eq_refl _ eq_refl)).
  repeat constructor.
Defined.

(** A record with a key too many: three parameters for two placeholders;
    the layer sends the statement as it is. *)
Example insert_uneven_batch :
  let st := insert_statement "users" [("id", VInt 3)]
              [[("id", VInt 3)]; [("id", VInt 4); ("name", VStr "di")]] None in
  placeholders (fst st) = 2 /\ bound (snd st) = 3.
Proof. split; reflexivity. Qed.

(** ** Values and the statement text *)

Lemma map_by_parts {A B C D : Type} (f : A -> B) (g : A -> C) (F : B -> C -> D)
    (l l' : list A) :
  map f l = map f l' -> map g l = map g l' ->
  map (fun x => F (f x) (g x)) l = map (fun x => F (f x) (g x)) l'.
Proof.
  revert l'. induction l as [|x l IH]; intros [|x' l'] Hf Hg;
    try discriminate; [reflexivity |].
  cbn [map] in *. injection Hf as Hf1 Hf2. injection Hg as Hg1 Hg2.
  now rewrite Hf1, Hg1, (IH l' Hf2 Hg2).
Qed.

(** X12: no value is ever written into a statement text.  The text of an
    insert depends on the keys of the first record and on the number of
    records only; the text of a delete on the keys and on which values are
    strings; the text of a select on the keys and on the comparator each
    value selects.  Values reach the driver as bound parameters alone. *)
Theorem values_stay_out_of_the_text :
  (forall table first first' data data' upsert_on,
      map fst first = map fst first' -> length data = length data' ->
      fst (insert_statement table first data upsert_on)
      = fst (insert_statement table first' data' upsert_on))
  /\ (forall table (w w' : dict),
      map fst w = map fst w' ->
      map (fun kv => isinstance_str (snd kv)) w
      = map (fun kv => isinstance_str (snd kv)) w' ->
      fst (delete_statement table w) = fst (delete_statement table w'))
  /\ (forall table field (w w' : dict) limit,
      map fst w = map fst w' ->
      map (fun kv => comparator_of (snd kv)) w
      = map (fun kv => comparator_of (snd kv)) w' ->
      fst (select_statement table field (Some w) limit)
      = fst (select_statement table field (Some w') limit)).
Proof.
  split; [| split].
  - intros table first first' data data' upsert_on Hk Hn.
    unfold insert_statement. cbv zeta. cbn [fst].
    now rewrite !map_const_replicate, Hk, Hn.
  - intros table w w' Hk Hs. unfold delete_statement.
    rewrite !delete_loop. cbn [fst app].
    pose proof (map_by_parts fst (fun kv => isinstance_str (snd kv))
                  (fun k b => k +:+ " " +:+ (if b then "like" else "is") +:+ " %s")
                  w w' Hk Hs) as E.
    cbv beta in E. now rewrite E.
  - intros table field w w' limit Hk Hc.
    destruct w as [|kv w], w' as [|kv' w']; try discriminate; [reflexivity |].
    rewrite !select_statement_where by discriminate. cbn [fst].
    rewrite !select_loop. cbn [fst app].
    pose proof (map_by_parts fst (fun kv => comparator_of (snd kv))
                  (fun k c => k +:+ " " +:+ c +:+ " %s")
                  (kv :: w) (kv' :: w') Hk Hc) as E.
    cbv beta in E. now rewrite E.
Qed.

(** ** What [query] hands over *)

(** X13: from a result set with at least one row, [query] with [as_tuple]
    returns the rows as tuples, all of them and in order; without it, one
    record per row under the reported column names, or [None] when no
    column is reported; and with [no_resp] it returns [None] without
    looking at the rows. *)
Theorem query_returns_what_was_fetched
    (server : list statement -> statement -> response)
    (q : string) (vals : option (list value)) (self : CoreDatabase)
    (c : nat) (p : Pool.t) (d : list string) (rows : list row) :
  Pool.getconn (pool self) = Some (c, p) ->
  server (sent self) (q, vals) = ResultSet d rows ->
  rows <> [] ->
  fst (query server q vals true false self) = Return (Some (map Tuple rows))
  /\ fst (query server q vals false false self)
     = Return (match d with
               | [] => None
               | _ => Some (map (fun r => Record (make_record d r)) rows)
               end)
  /\ forall as_tuple, fst (query server q vals as_tuple true self) = Return None.
Proof.
  intros Hg Hr Hrows. rewrite !query_eq, Hg, Hr. cbn [fst answer negb].
  destruct rows as [|r rows]; [contradiction |].
  split; [reflexivity | split].
  - now destruct d.
  - intros as_tuple. rewrite query_eq, Hg, Hr. reflexivity.
Qed.

Lemma query_returns_what_was_fetched_witness :
  fst (query demo_server "select id from logs" None true false (fresh demo_server))
  = Return (Some [Tuple [VInt 1]; Tuple [VInt 2]]).
Proof.
  refine (proj1 (query_returns_what_was_fetched demo_server "select id from logs" None
                   (fresh demo_server) 1 _ ["id"] [[VInt 1]; [VInt 2]]
                   eq_refl eq_refl _)).
  discriminate.
Defined.

(** ** The attributes of the object *)

Section Attributes.

Variable server : list statement -> statement -> response.

Lemma query_attributes (q : string) (vals : option (list value))
    (as_tuple no_resp : bool) (self : CoreDatabase) :
  _tables (snd (query server q vals as_tuple no_resp self)) = _tables self
  /\ db (snd (query server q vals as_tuple no_resp self)) = db self.
Proof.
  rewrite query_eq. now destruct (Pool.getconn (pool self)) as [[c p]|].
Qed.

Lemma tables_db (self : CoreDatabase) :
  db (snd (tables server self)) = db self.
Proof.
  unfold tables.
  pose proof (proj2 (query_attributes catalog_query None true false self)) as Hq.
  destruct (_tables self) as [[|t ts]|]; [| reflexivity |];
    (destruct (query _ _ _ _ _ _) as [[resp|e] s']; [| exact Hq];
     destruct resp as [[|x l]|]; [exact Hq | | exact Hq];
     destruct (firsts _); exact Hq).
Qed.

End Attributes.

(** X14: [db] is written by the constructor alone, and the cached table
    list by [tables] alone, directly or inside [select]: [query], [insert]
    and [delete] leave both as they are, and [tables] and [select] leave
    [db] as it is. *)
Theorem attributes_are_stable
    (server : list statement -> statement -> response) (self : CoreDatabase) :
  (forall q vals as_tuple no_resp,
      _tables (snd (query server q vals as_tuple no_resp self)) = _tables self
      /\ db (snd (query server q vals as_tuple no_resp self)) = db self)
  /\ (forall table data upsert_on,
      _tables (snd (insert server table data upsert_on self)) = _tables self
      /\ db (snd (insert server table data upsert_on self)) = db self)
  /\ (forall table where_,
      _tables (snd (delete server table where_ self)) = _tables self
      /\ db (snd (delete server table where_ self)) = db self)
  /\ db (snd (tables server self)) = db self
  /\ (forall table field where_ limit,
      db (snd (select server table field where_ limit self)) = db self).
Proof.
  split; [| split; [| split; [| split]]].
  - intros. apply query_attributes.
  - intros table data upsert_on. rewrite insert_eq.
    destruct (force_list data) as [|first rest]; [now split |].
    cbv zeta. now destruct (Pool.getconn (pool self)) as [[c p]|].
  - intros table where_. rewrite delete_eq. cbv zeta.
    now destruct (Pool.getconn (pool self)) as [[c p]|].
  - apply tables_db.
  - intros table field where_ limit. unfold select, bind, ret, raise.
    pose proof (tables_db server self) as Ht.
    destruct (tables server self) as [[tbls|e] self1]; cbn [snd] in Ht; [| exact Ht].
    destruct (negb (table_in table tbls)); [exact Ht |].
    destruct (select_statement table field where_ limit) as [q vs].
    pose proof (proj2 (query_attributes server q vs (single_field field) false self1)) as Hq.
    destruct (query _ _ _ _ _ _) as [[resp|e] s']; cbn [snd] in Hq |- *;
      [| congruence].
    destruct resp as [[|x l]|]; cbn [snd]; try congruence.
    destruct (single_field field); [| cbn [snd]; congruence].
    destruct (firsts _); cbn [snd]; congruence.
Qed.

(** ** The cursor scope *)


(** ** One field of wider rows *)

Lemma firsts_tuples (rows : list row) :
  Forall (fun r => r <> []) rows ->
  firsts (map Tuple rows) = Return (omap head rows).
Proof.
  induction 1 as [|[|v t] rows Hr Hrows IH]; [reflexivity | contradiction |].
  cbn [map firsts getitem0 omap list_omap head]. now rewrite IH.
Qed.

Lemma firsts_empty_tuple (rows : list row) :
  Exists (fun r => r = []) rows -> firsts (map Tuple rows) = Raise IndexError.
Proof.
  induction 1 as [r rows ->|[|v t] rows Hex IH]; try reflexivity.
  cbn [map firsts getitem0]. now rewrite IH.
Qed.

(** X16: a field text other than the bare wildcard and without a comma is
    taken for one field, whatever it selects: [select] then keeps the
    first value of every row and drops the others; a row without any
    value makes it raise [IndexError]. *)
Theorem select_keeps_the_first_column
    (server : list statement -> statement -> response)
    (table field : string) (where_ : option dict) (limit : option Z)
    (self self1 : CoreDatabase) (tbls : list value) (c : nat) (p : Pool.t)
    (d : list string) (rows : list row) :
  tables server self = (Return tbls, self1) ->
  table_in table tbls = true ->
  Pool.getconn (pool self1) = Some (c, p) ->
  field <> "*" -> str_in "," field = false ->
  server (sent self1) (select_statement table field where_ limit) = ResultSet d rows ->
  (Forall (fun r => r <> []) rows ->
   fst (select server table field where_ limit self)
   = Return (map Scalar (omap head rows)))
  /\ (Exists (fun r => r = []) rows ->
      fst (select server table field where_ limit self) = Raise IndexError).
Proof.
  intros Ht Hin Hg Hstar Hcomma Hr.
  rewrite (select_known server table field where_ limit self self1 tbls c p Ht Hin Hg).
  cbv zeta. rewrite Hr, (proj2 (single_field_spec field) (conj Hstar Hcomma)).
  cbn [fst answer negb]. split; intros Hrows.
  - destruct rows as [|r rows]; [reflexivity |]. cbn [shape].
    now rewrite (firsts_tuples (r :: rows) Hrows).
  - destruct rows as [|r rows]; [now apply Exists_nil in Hrows |]. cbn [shape].
    now rewrite (firsts_empty_tuple (r :: rows) Hrows).
Qed.

Lemma select_keeps_the_first_column_witness :
  fst (select demo_server "users" "users.*" None None (fresh demo_server))
  = Return [Scalar (VInt 1); Scalar (VInt 2)].
Proof.
  refine (proj1 (select_keeps_the_first_column demo_server "users" "users.*" None None
                   (fresh demo_server) (warm demo_server)
                   [VStr "users"; VStr "logs"] 2 _ ["id"; "name"]
                   [[VInt 1; VStr "al"]; [VInt 2; VStr "bo"]]
                   eq_refl eq_refl eq_refl _ eq_refl eq_refl) _).
  - discriminate.
  - repeat constructor; discriminate.
Defined.
